(** * determine-version: from a branch name to a release version

    A shallow embedding of [.github/determine-version.py] and the
    properties of its output.  Python strings are sequences of Unicode
    code points; the program trims its argument with [str.strip], removes
    one of two prefixes, runs the compiled pattern [shortform] on the rest
    and prints one [::set-output] command. *)

From Stdlib Require Import Ascii String List NArith ZArith Bool Lia.
Import ListNotations.

Set Implicit Arguments.

(** ** Strings *)

Module Py.

(** A character is a code point, a [str] the list of its code points. *)
Definition char := N.
Definition str := list char.

(** The code points of an ASCII literal of the source. *)
Definition lit (s : string) : str :=
  map N_of_ascii (list_ascii_of_string s).

Definition LF : char := 10%N.

(** [bool(s)] for a string: the empty string is false. *)
Definition truthy (s : str) : bool :=
  match s with
  | [] => false
  | _ :: _ => true
  end.

(** [bool(x)] for [x : Optional[str]]: [None] and [''] are false. *)
Definition truthy_opt (o : option str) : bool :=
  match o with
  | Some s => truthy s
  | None => false
  end.

(** [a or b] on an optional string. *)
Definition or_else (o : option str) (d : str) : str :=
  if truthy_opt o then match o with Some s => s | None => d end else d.

(** What an f-string writes for [{x}]: the string, or the word None. *)
Definition fmt (o : option str) : str :=
  match o with
  | Some s => s
  | None => lit "None"
  end.

Fixpoint str_eqb (a b : str) : bool :=
  match a, b with
  | [], [] => true
  | x :: a', y :: b' => N.eqb x y && str_eqb a' b'
  | _, _ => false
  end.

(** [s.startswith(p)] *)
Fixpoint startswith (s p : str) {struct p} : bool :=
  match p with
  | [] => true
  | c :: p' =>
      match s with
      | [] => false
      | d :: s' => N.eqb d c && startswith s' p'
      end
  end.

(** [s[n:]] *)
Definition slice_from (n : nat) (s : str) : str := skipn n s.

(** [c.isspace()]: the code points that [str.strip] removes. *)
Definition isspace (c : char) : bool :=
  ((9 <=? c) && (c <=? 13) || (28 <=? c) && (c <=? 32)
   || (c =? 133) || (c =? 160) || (c =? 5760)
   || (8192 <=? c) && (c <=? 8202)
   || (c =? 8232) || (c =? 8233) || (c =? 8239) || (c =? 8287)
   || (c =? 12288))%N.

Fixpoint lstrip (s : str) : str :=
  match s with
  | [] => []
  | c :: s' => if isspace c then lstrip s' else s
  end.

Fixpoint rstrip (s : str) : str :=
  match s with
  | [] => []
  | c :: s' =>
      match rstrip s' with
      | [] => if isspace c then [] else [c]
      | r => c :: r
      end
  end.

(** [s.strip()] *)
Definition strip (s : str) : str := rstrip (lstrip s).

(** A dict with string keys, in insertion order. *)
Definition dict := list (str * str).

Fixpoint dict_lookup (d : dict) (key : str) : option str :=
  match d with
  | [] => None
  | (k, v) :: d' => if str_eqb k key then Some v else dict_lookup d' key
  end.

(** [d.get(key, default)] *)
Definition dict_get (d : dict) (key : str) (default : str) : str :=
  match dict_lookup d key with
  | Some v => v
  | None => default
  end.

End Py.

(** ** The process: two output channels and an exit status *)

Module Proc.

Record channels := Channels { stdout : Py.str; stderr : Py.str }.

(** How a block of statements ends: it falls through with a value, the
    function returns, or [sys.exit] unwinds the interpreter. *)
Inductive signal (A : Type) :=
| Next (a : A)
| Return
| Exit (code : Z).
Arguments Next {A} a.
Arguments Return {A}.
Arguments Exit {A} code.

Definition stmt (A : Type) := channels -> signal A * channels.

Definition ret {A} (a : A) : stmt A := fun w => (Next a, w).

Definition bind {A B} (m : stmt A) (f : A -> stmt B) : stmt B :=
  fun w =>
    match m w with
    | (Next a, w') => f a w'
    | (Return, w') => (Return, w')
    | (Exit c, w') => (Exit c, w')
    end.

Definition return_ {A} : stmt A := fun w => (Return, w).

Definition sys_exit {A} (code : Z) : stmt A := fun w => (Exit code, w).

(** [print(s)]: the text and a line feed on standard output. *)
Definition print (s : Py.str) : stmt unit :=
  fun w => (Next tt, Channels (stdout w ++ s ++ [Py.LF]) (stderr w)).

(** [print(s, file=sys.stderr)] *)
Definition print_err (s : Py.str) : stmt unit :=
  fun w => (Next tt, Channels (stdout w) (stderr w ++ s ++ [Py.LF])).

(** What the caller of the script observes. *)
Record outcome := Outcome { exit_code : Z; out : Py.str; err : Py.str }.

(** Running a script body from empty channels: a body that falls off its
    end or returns exits with status 0. *)
Definition run (body : stmt unit) : outcome :=
  match body (Channels [] []) with
  | (Exit c, w) => Outcome c (stdout w) (stderr w)
  | (_, w) => Outcome 0 (stdout w) (stderr w)
  end.

End Proc.

Declare Scope proc_scope.
Delimit Scope proc_scope with proc.
Notation "x <- m ;; k" := (Proc.bind m (fun x => k))
  (at level 61, m at next level, right associativity) : proc_scope.
Notation "m ;; k" := (Proc.bind m (fun _ => k))
  (at level 61, right associativity) : proc_scope.

(** ** Regular expressions, as [re] runs them *)

Module Re.

Import Py.

(** The part of the pattern syntax that [shortform] uses. *)
Inductive regex :=
| Bol                               (* ^ *)
| Eol                               (* $ *)
| Chr (c : char)                    (* a literal or escaped character *)
| Range (lo hi : char)              (* [lo-hi] *)
| Digit                             (* \d *)
| Cat (r1 r2 : regex)
| Alt (r1 r2 : regex)               (* r1|r2 *)
| Opt (r : regex)                   (* r? *)
| Star (r : regex)                  (* r* *)
| Group (r : regex)                 (* (r) *)
| Named (name : string) (r : regex) (* (?P<name>r) *).

(** The named groups that took part in a match, latest first. *)
Definition captures := list (string * str).

Fixpoint group (m : captures) (name : string) : option str :=
  match m with
  | [] => None
  | (n, s) :: m' => if String.eqb n name then Some s else group m' name
  end.

(** The matcher's state: the index reached, the text from there on and
    the groups closed so far. *)
Record mstate := MS { pos : nat; rest : str; groups : captures }.

Definition cont := mstate -> option captures.

Definition orelse (a b : option captures) : option captures :=
  match a with
  | Some m => Some m
  | None => b
  end.

(** One character that satisfies [p]. *)
Definition step (p : char -> bool) (k : cont) (st : mstate) : option captures :=
  match rest st with
  | c :: tl => if p c then k (MS (S (pos st)) tl (groups st)) else None
  | [] => None
  end.

(** [$] without [re.M]: at the end, or before a line feed that ends the
    text. *)
Definition at_eol (s : str) : bool :=
  match s with
  | [] => true
  | [c] => N.eqb c LF
  | _ => false
  end.

(** Closing group [name], opened at [st0], in state [st]. *)
Definition close (name : string) (st0 st : mstate) : mstate :=
  MS (pos st) (rest st)
     ((name, firstn (pos st - pos st0) (rest st0)) :: groups st).

(** A greedy repetition: another round of [body] first, as long as the
    round moves forward, and the continuation when that fails. *)
Fixpoint star_loop (body : cont -> cont) (k : cont) (fuel : nat)
    (st : mstate) : option captures :=
  match fuel with
  | O => k st
  | S fuel' =>
      orelse
        (body (fun st' =>
                 if Nat.ltb (length (rest st')) (length (rest st))
                 then star_loop body k fuel' st' else None) st)
        (k st)
  end.

Section Matcher.

(** [\d] on a [str] pattern is the Unicode category Nd, a table of the
    interpreter. *)
Variable isdecimal : char -> bool.

(** Backtracking in continuation-passing style: [rmatch r k st] tries the
    ways [r] matches at [st] in the order of [re], and answers with the
    first one on which [k] succeeds. *)
Fixpoint rmatch (r : regex) (k : cont) (st : mstate) : option captures :=
  match r with
  | Bol => if Nat.eqb (pos st) 0 then k st else None
  | Eol => if at_eol (rest st) then k st else None
  | Chr c => step (N.eqb c) k st
  | Range lo hi => step (fun x => (lo <=? x) && (x <=? hi))%N k st
  | Digit => step isdecimal k st
  | Cat r1 r2 => rmatch r1 (rmatch r2 k) st
  | Alt r1 r2 => orelse (rmatch r1 k st) (rmatch r2 k st)
  | Opt r1 => orelse (rmatch r1 k st) (k st)
  | Star r1 => star_loop (rmatch r1) k (S (length (rest st))) st
  | Group r1 => rmatch r1 k st
  | Named name r1 => rmatch r1 (fun st' => k (close name st st')) st
  end.

(** [pattern.match(s)]: a match that starts at index 0. *)
Definition re_match (r : regex) (s : str) : option captures :=
  rmatch r (fun st => Some (groups st)) (MS 0 s []).

End Matcher.

End Re.

(** ** The program *)

Import Py Proc Re.
Local Open Scope proc_scope.
Local Open Scope char_scope.

Infix "@@" := Cat (at level 60, right associativity).

(** The code point of an ASCII character of the source. *)
Definition ch (a : ascii) : char := N_of_ascii a.

(** A fragment of the Nd table to run the program on: the Arabic-Indic
    digits U+0660 to U+0669. *)
Definition nd_sample (c : char) : option N :=
  if ((1632 <=? c) && (c <=? 1641))%N then Some (c - 1632)%N else None.

(** The table with no digit outside ASCII: with it the class of digits is
    0 to 9, which is how the specification words the grammar. *)
Definition ascii_only (c : char) : option N := None.

(** [sys.argv[0]] in the runs below. *)
Definition argv0 : str := lit "determine-version.py".

(** A successful run that printed [value]. *)
Definition printed (value : string) : outcome :=
  Outcome 0 (lit "::set-output name=version::" ++ lit value ++ [LF]) [].

Section Program.

(** The decimal digits outside ASCII: [nd_value c] is the digit value of a
    code point [c >= 128] of category Nd.  The table belongs to the
    interpreter's Unicode database, so the program is read for any such
    table. *)
Variable nd_value : char -> option N.

(** [c.isdecimal()], the class [\d]: below 128 these are [0] to [9]. *)
Definition isdecimal (c : char) : bool :=
  if (c <? 128)%N then ((48 <=? c) && (c <=? 57))%N
  else match nd_value c with Some _ => true | None => false end.

(** [posint]: the group of [0] or of one of [1-9] and any number of [\d]. *)
Definition posint : regex :=
  Group (Alt (Chr (ch "0")) (Range (ch "1") (ch "9") @@ Star Digit)).

(** The pattern [shortform], compiled with [re.X]. *)
Definition shortform : regex :=
  Bol
  @@ Named "major" posint
  @@ Chr (ch ".")
  @@ Named "minor" posint
  @@ Opt (Group (Chr (ch ".") @@ Named "micro" posint))
  @@ Opt (Group (Named "prekind"
                   (Alt (Chr (ch "a")) (Alt (Chr (ch "b")) (Chr (ch "r") @@ Chr (ch "c"))))
                 @@ Named "preval" posint))
  @@ Eol.

Definition shortform_match (s : str) : option captures :=
  re_match isdecimal shortform s.

(** The two optional groups of [shortform], named for the proofs. *)
Definition micro_part : regex :=
  Group (Chr (ch ".") @@ Named "micro" posint).

Definition prekind_alt : regex :=
  Alt (Chr (ch "a")) (Alt (Chr (ch "b")) (Chr (ch "r") @@ Chr (ch "c"))).

Definition pre_part : regex :=
  Group (Named "prekind" prekind_alt @@ Named "preval" posint).

(** The continuation of a whole match: the match object. *)
Definition matched : cont := fun st => Some (groups st).

Definition prerelease_kinds : dict :=
  [(lit "a", lit "alpha"); (lit "b", lit "beta"); (lit "rc", lit "rc")].

Definition error_message : str :=
  lit "error: branch name not passed as a sole argument. On GHA pass it as part of `client_payload`.".

Definition set_output : str := lit "::set-output name=version::".

(** [main()], with [sys.argv] as its argument.  [sys.argv[1]] is read only
    behind the length test. *)
Definition main (argv : list str) : stmt unit :=
  (if negb (Nat.eqb (length argv) 2) || negb (truthy (strip (nth 1 argv [])))
   then print_err error_message ;; sys_exit 1
   else ret tt) ;;
  let branch := strip (nth 1 argv []) in
  version <-
    (if startswith branch (lit "v") then
       ret (slice_from 1 branch)
     else if startswith branch (lit "release/") then
       ret (slice_from (length (lit "release/")) branch)
     else
       print (set_output ++ branch) ;; return_) ;;
  version <-
    match shortform_match version with
    | Some m =>
        let major := group m "major" in
        let minor := group m "minor" in
        let micro := or_else (group m "micro") (lit "0") in
        let prekind := group m "prekind" in
        let preval := group m "preval" in
        let version := fmt major ++ lit "." ++ fmt minor ++ lit "." ++ micro in
        match prekind with
        | Some ((_ :: _) as kind) =>
            let longprekind := dict_get prerelease_kinds kind (lit "dev") in
            ret (version ++ lit "-" ++ longprekind ++ lit "." ++ fmt preval)
        | _ => ret version
        end
    | None => ret version
    end ;;
  print (set_output ++ version).

(** The script run with the given [sys.argv]. *)
Definition script (argv : list str) : outcome := run (main argv).

(** ** The short-form grammar, as the specification words it *)

(** The prerelease markers. *)
Inductive PreKind := KindA | KindB | KindRC.

Definition marker (k : PreKind) : str :=
  match k with
  | KindA => lit "a"
  | KindB => lit "b"
  | KindRC => lit "rc"
  end.

Definition longkind (k : PreKind) : str :=
  match k with
  | KindA => lit "alpha"
  | KindB => lit "beta"
  | KindRC => lit "rc"
  end.

(** A parsed version: the text of each number, an absent MICRO and an
    absent prerelease suffix as [None]. *)
Record ParsedVersion := Parsed {
  pv_major : str;
  pv_minor : str;
  pv_micro : option str;
  pv_pre : option (PreKind * str)
}.

(** The integer-format rule: the single character [0], or one of [1-9]
    and then digits. *)
Definition is_posint (s : str) : bool :=
  match s with
  | [] => false
  | c :: ds =>
      if (c =? 48)%N then match ds with [] => true | _ :: _ => false end
      else ((49 <=? c) && (c <=? 57))%N && forallb isdecimal ds
  end.

Definition opt_posint (o : option str) : bool :=
  match o with
  | Some s => is_posint s
  | None => true
  end.

Definition well_formed (v : ParsedVersion) : bool :=
  is_posint (pv_major v) && is_posint (pv_minor v)
  && opt_posint (pv_micro v) && opt_posint (option_map snd (pv_pre v)).

(** MAJOR '.' MINOR ['.' MICRO] [PREKIND PREVAL] *)
Definition micro_text (mc : option str) : str :=
  match mc with
  | Some m => lit "." ++ m
  | None => []
  end.

Definition pre_text (pre : option (PreKind * str)) : str :=
  match pre with
  | Some (k, n) => marker k ++ n
  | None => []
  end.

Definition short_form (v : ParsedVersion) : str :=
  pv_major v ++ lit "." ++ pv_minor v
  ++ micro_text (pv_micro v) ++ pre_text (pv_pre v).

(** The reassembled form: MAJOR.MINOR.MICRO and, for a prerelease,
    -KIND.VALUE. *)
Definition canonical (v : ParsedVersion) : str :=
  pv_major v ++ lit "." ++ pv_minor v ++ lit "."
  ++ match pv_micro v with Some m => m | None => lit "0" end
  ++ match pv_pre v with
     | Some (k, n) => lit "-" ++ longkind k ++ lit "." ++ n
     | None => []
     end.

(** A recogniser for the grammar, by longest match of each number. *)
Fixpoint span_decimal (s : str) : str * str :=
  match s with
  | [] => ([], [])
  | c :: tl =>
      if isdecimal c
      then let (ds, r) := span_decimal tl in (c :: ds, r)
      else ([], s)
  end.

Definition take_posint (s : str) : option (str * str) :=
  match s with
  | [] => None
  | c :: tl =>
      if (c =? 48)%N then Some ([c], tl)
      else if ((49 <=? c) && (c <=? 57))%N
           then let (ds, r) := span_decimal tl in Some (c :: ds, r)
           else None
  end.

Definition take_marker (s : str) : option (PreKind * str) :=
  match s with
  | [] => None
  | c :: tl =>
      if (c =? 97)%N then Some (KindA, tl)
      else if (c =? 98)%N then Some (KindB, tl)
      else if (c =? 114)%N
           then match tl with
                | [] => None
                | d :: tl' => if (d =? 99)%N then Some (KindRC, tl') else None
                end
           else None
  end.

(** The optional prerelease suffix, up to the end of the text. *)
Definition parse_pre (s : str) : option (option (PreKind * str)) :=
  match s with
  | [] => Some None
  | _ :: _ =>
      match take_marker s with
      | Some (k, t) =>
          match take_posint t with
          | Some (n, []) => Some (Some (k, n))
          | _ => None
          end
      | None => None
      end
  end.

(** The optional MICRO and what follows it. *)
Definition parse_micro (s : str) : option (option str * str) :=
  match s with
  | c :: t =>
      if (c =? 46)%N
      then match take_posint t with
           | Some (m, r) => Some (Some m, r)
           | None => None
           end
      else Some (None, s)
  | [] => Some (None, s)
  end.

Definition parse_short (s : str) : option ParsedVersion :=
  match take_posint s with
  | Some (ma, c :: s1) =>
      if (c =? 46)%N then
        match take_posint s1 with
        | Some (mi, s2) =>
            match parse_micro s2 with
            | Some (mc, s3) =>
                match parse_pre s3 with
                | Some pre => Some (Parsed ma mi mc pre)
                | None => None
                end
            | None => None
            end
        | None => None
        end
      else None
  | _ => None
  end.

(** The groups of a match that reads [v]. *)
Definition pre_groups (pre : option (PreKind * str)) : captures :=
  match pre with
  | Some (k, n) => [("preval"%string, n); ("prekind"%string, marker k)]
  | None => []
  end.

Definition micro_groups (mc : option str) : captures :=
  match mc with
  | Some m => [("micro"%string, m)]
  | None => []
  end.

Definition groups_of (v : ParsedVersion) : captures :=
  pre_groups (pv_pre v) ++ micro_groups (pv_micro v)
  ++ [("minor"%string, pv_minor v); ("major"%string, pv_major v)].

(** The resolver of the specification: strip one prefix, and reassemble
    what the grammar recognises. *)
Definition normalize (version : str) : str :=
  match parse_short version with
  | Some v => canonical v
  | None => version
  end.

Definition resolve (branch : str) : str :=
  if startswith branch (lit "v") then normalize (skipn 1 branch)
  else if startswith branch (lit "release/") then normalize (skipn 8 branch)
  else branch.

(** The integer that a run of decimal digits denotes. *)
Definition digit_value (c : char) : N :=
  if (c <? 128)%N then (c - 48)%N
  else match nd_value c with Some d => d | None => 0%N end.

Definition int_of (s : str) : N :=
  fold_left (fun acc c => (10 * acc + digit_value c)%N) s 0%N.

(** The integer of a numeral, as [int] reads a text of digits: a text
    that is empty or holds another character denotes no integer. *)
Definition numeral (s : str) : option N :=
  match s with
  | [] => None
  | _ :: _ => if forallb isdecimal s then Some (int_of s) else None
  end.

(** The first three dot-separated fields of a version string; the third
    ends at a hyphen or at the end. *)
Fixpoint until (stop : char -> bool) (s : str) : str * str :=
  match s with
  | [] => ([], [])
  | c :: tl =>
      if stop c then ([], s)
      else let (w, r) := until stop tl in (c :: w, r)
  end.

Definition version_fields (s : str) : option (str * str * str) :=
  match until (N.eqb 46) s with
  | (a, _ :: s1) =>
      match until (N.eqb 46) s1 with
      | (b, _ :: s2) =>
          let (c, _) := until (N.eqb 45) s2 in Some (a, b, c)
      | _ => None
      end
  | _ => None
  end.

(** A trimmed text: [rstrip] leaves it as it is. *)
Definition rtrimmed (s : str) : Prop := rstrip s = s.

(** The continuations that follow a number in [shortform] all fail in
    front of a digit, so a greedy run of [\d] never gives a digit back. *)
Definition rejects_digit (k : cont) : Prop :=
  forall p c tl g, isdecimal c = true -> k (MS p (c :: tl) g) = None.

(** A text that a number cannot run into. *)
Definition stops (r : str) : Prop :=
  match r with
  | [] => True
  | c :: _ => isdecimal c = false
  end.

(** A multi-digit numeric component with a leading zero: a [0] that opens
    a run of digits and is followed by a digit. *)
Definition leading_zero (s : str) : Prop :=
  exists a c b,
    s = a ++ 48%N :: c :: b /\ isdecimal c = true
    /\ (forall a' d, a = a' ++ [d] -> isdecimal d = false).

(** The same, decided by a scan; [prev] tells whether the previous
    character was a digit. *)
Fixpoint lz_scan (prev : bool) (s : str) : bool :=
  match s with
  | [] => false
  | c :: tl =>
      if isdecimal c
      then negb prev && (c =? 48)%N
           && match tl with d :: _ => isdecimal d | [] => false end
           || lz_scan true tl
      else lz_scan false tl
  end.

(** The lines of a channel: its line feeds. *)
Definition line_count (s : str) : nat := length (filter (N.eqb LF) s).

(** [s] occurs in [t]. *)
Definition occurs_in (s t : str) : Prop := exists a b, t = a ++ s ++ b.

(** The recogniser with the end test of [$]: the optional prerelease
    suffix up to the end of the text or to a final line feed. *)
Definition parse_pre_eol (s : str) : option (option (PreKind * str)) :=
  if at_eol s then Some None
  else
    match take_marker s with
    | Some (k, t) =>
        match take_posint t with
        | Some (n, r) => if at_eol r then Some (Some (k, n)) else None
        | None => None
        end
    | None => None
    end.

Definition parse_short_eol (s : str) : option ParsedVersion :=
  match take_posint s with
  | Some (ma, c :: s1) =>
      if (c =? 46)%N then
        match take_posint s1 with
        | Some (mi, s2) =>
            match parse_micro s2 with
            | Some (mc, s3) =>
                match parse_pre_eol s3 with
                | Some pre => Some (Parsed ma mi mc pre)
                | None => None
                end
            | None => None
            end
        | None => None
        end
      else None
  | _ => None
  end.

(** MICRO as the reassembled text has it. *)
Definition micro_or_zero (v : ParsedVersion) : str :=
  match pv_micro v with
  | Some m => m
  | None => lit "0"
  end.

(** ** Facts about strings *)

Local Arguments N.eqb : simpl never.
Local Arguments N.leb : simpl never.
Local Arguments N.ltb : simpl never.

Lemma orelse_none_r (a : option captures) : orelse a None = a.
Proof. now destruct a. Qed.

Lemma startswith_inv (s p : str) :
  startswith s p = true -> s = p ++ skipn (length p) s.
Proof.
  revert s. induction p as [|c p IH]; intros s H; simpl in *; [reflexivity|].
  destruct s as [|d s]; [discriminate|].
  apply andb_true_iff in H as [H1 H2]. apply N.eqb_eq in H1. subst d.
  simpl. f_equal. now apply IH.
Qed.

Lemma firstn_prefix (p s : str) : firstn (length p) (p ++ s) = p.
Proof. induction p; simpl; [now destruct s|]. now f_equal. Qed.

Lemma lstrip_all_space (s : str) :
  forallb isspace (lstrip s) = forallb isspace s.
Proof.
  induction s as [|c s IH]; simpl; [reflexivity|].
  destruct (isspace c) eqn:E; simpl; [assumption|].
  now rewrite E.
Qed.

Lemma rstrip_nil_iff (s : str) : rstrip s = [] <-> forallb isspace s = true.
Proof.
  induction s as [|c s IH]; simpl; [tauto|].
  destruct (rstrip s) as [|x r] eqn:E.
  - destruct (isspace c); simpl; split; intros H; try discriminate; tauto.
  - split; [discriminate|]. intros H.
    apply andb_true_iff in H as [_ H]. apply IH in H. discriminate.
Qed.

Lemma strip_nil_iff (s : str) : strip s = [] <-> forallb isspace s = true.
Proof.
  unfold strip. rewrite rstrip_nil_iff. now rewrite lstrip_all_space.
Qed.

Lemma rstrip_length (s : str) : length (rstrip s) <= length s.
Proof.
  induction s as [|c s IH]; simpl; [lia|].
  destruct (rstrip s); [destruct (isspace c)|]; simpl in *; lia.
Qed.

Lemma rstrip_app (a b : str) :
  rstrip (a ++ b) = match rstrip b with [] => rstrip a | _ :: _ => a ++ rstrip b end.
Proof.
  induction a as [|x a IH]; simpl.
  - now destruct (rstrip b).
  - rewrite IH. destruct (rstrip b) as [|y r]; [reflexivity|].
    now destruct a.
Qed.

Lemma rstrip_idem (s : str) : rtrimmed (rstrip s).
Proof.
  unfold rtrimmed. induction s as [|c s IH]; simpl; [reflexivity|].
  destruct (rstrip s) as [|y r] eqn:E.
  - destruct (isspace c) eqn:Ec; simpl; [reflexivity|]. now rewrite Ec.
  - simpl in *. change (rstrip (y :: r)) with
      (match rstrip r with [] => if isspace y then [] else [y] | _ :: _ => y :: rstrip r end) in IH.
    destruct (rstrip r) as [|z r'] eqn:Er.
    + destruct (isspace y); [discriminate|]. injection IH as <-.
      reflexivity.
    + injection IH as ->. reflexivity.
Qed.

Lemma strip_rtrimmed (s : str) : rtrimmed (strip s).
Proof. apply rstrip_idem. Qed.

Lemma rtrimmed_suffix (a b : str) : rtrimmed (a ++ b) -> rtrimmed b.
Proof.
  unfold rtrimmed. rewrite rstrip_app. intros H.
  destruct (rstrip b) as [|y r] eqn:E.
  - destruct b as [|z b]; [reflexivity|].
    pose proof (rstrip_length a) as L. rewrite H in L.
    rewrite length_app in L. simpl in L. lia.
  - now apply app_inv_head in H.
Qed.

Lemma rtrimmed_app (a b : str) : b <> [] -> rtrimmed b -> rtrimmed (a ++ b).
Proof.
  unfold rtrimmed. intros Hb H. rewrite rstrip_app, H.
  destruct b; [contradiction|reflexivity].
Qed.

Lemma rtrimmed_skipn (n : nat) (s : str) : rtrimmed s -> rtrimmed (skipn n s).
Proof.
  intros H. apply rtrimmed_suffix with (a := firstn n s).
  now rewrite firstn_skipn.
Qed.

Lemma rtrimmed_not_lf (s : str) : rtrimmed s -> at_eol s = true -> s = [].
Proof.
  unfold rtrimmed. destruct s as [|c [|d s]]; simpl; intros H E;
    [reflexivity| |discriminate].
  apply N.eqb_eq in E. subst c. discriminate.
Qed.

Lemma lstrip_fix (c : char) (s : str) : isspace c = false -> lstrip (c :: s) = c :: s.
Proof. intros H. simpl. now rewrite H. Qed.

(** ** The matcher on the pieces of [shortform] *)

Lemma isdecimal_cases (c : char) :
  isdecimal c = true -> (48 <= c <= 57)%N \/ (128 <= c)%N.
Proof.
  unfold isdecimal. destruct (N.ltb_spec c 128) as [Hlt|Hge]; [|lia].
  intros H. apply andb_true_iff in H as [H1 H2].
  apply N.leb_le in H1, H2. lia.
Qed.

Lemma isdecimal_neq (c d : char) :
  isdecimal c = true -> (d < 48 \/ 57 < d < 128)%N -> (d =? c)%N = false.
Proof.
  intros H Hd. apply isdecimal_cases in H. apply N.eqb_neq. lia.
Qed.

Lemma star_digit_run (k : cont) :
  rejects_digit k ->
  forall tl fuel p g,
    length tl < fuel ->
    star_loop (rmatch isdecimal Digit) k fuel (MS p tl g)
    = k (MS (length (fst (span_decimal tl)) + p) (snd (span_decimal tl)) g).
Proof.
  intros Hk. induction tl as [|c tl IH]; intros fuel p g Hf;
    (destruct fuel as [|fuel]; [simpl in Hf; lia|]).
  - reflexivity.
  - simpl in Hf. simpl. unfold step. simpl.
    destruct (isdecimal c) eqn:Ec.
    + replace (Nat.ltb (length tl) (S (length tl))) with true
        by (symmetry; apply Nat.ltb_lt; lia).
      rewrite IH by lia. rewrite (Hk p c tl g Ec), orelse_none_r.
      destruct (span_decimal tl) as [ds r]. simpl.
      now rewrite Nat.add_succ_r.
    + reflexivity.
Qed.

Lemma span_decimal_app (s : str) :
  s = fst (span_decimal s) ++ snd (span_decimal s).
Proof.
  induction s as [|c s IH]; simpl; [reflexivity|].
  destruct (isdecimal c); [|reflexivity].
  destruct (span_decimal s) as [ds r]. simpl in *. now f_equal.
Qed.

Lemma span_decimal_all (s : str) : forallb isdecimal (fst (span_decimal s)) = true.
Proof.
  induction s as [|c s IH]; simpl; [reflexivity|].
  destruct (isdecimal c) eqn:E; [|reflexivity].
  destruct (span_decimal s) as [ds r]. simpl in *. now rewrite E.
Qed.

Lemma take_posint_sound (s w r : str) :
  take_posint s = Some (w, r) -> s = w ++ r /\ is_posint w = true.
Proof.
  destruct s as [|c tl]; simpl; [discriminate|].
  destruct (c =? 48)%N eqn:E0.
  - intros [= <- <-]. simpl. now rewrite E0.
  - destruct ((49 <=? c) && (c <=? 57))%N eqn:E1; [|discriminate].
    pose proof (span_decimal_app tl) as Happ.
    pose proof (span_decimal_all tl) as Hall.
    destruct (span_decimal tl) as [ds r']. simpl in *.
    intros [= <- <-]. split; [simpl; congruence|].
    unfold is_posint. now rewrite E0, E1, Hall.
Qed.

(** The equations of [rmatch], one per construct. *)
Lemma rmatch_Cat r1 r2 k st :
  rmatch isdecimal (r1 @@ r2) k st = rmatch isdecimal r1 (rmatch isdecimal r2 k) st.
Proof. reflexivity. Qed.

Lemma rmatch_Alt r1 r2 k st :
  rmatch isdecimal (Alt r1 r2) k st
  = orelse (rmatch isdecimal r1 k st) (rmatch isdecimal r2 k st).
Proof. reflexivity. Qed.

Lemma rmatch_Opt r k st :
  rmatch isdecimal (Opt r) k st = orelse (rmatch isdecimal r k st) (k st).
Proof. reflexivity. Qed.

Lemma rmatch_Group r k st :
  rmatch isdecimal (Group r) k st = rmatch isdecimal r k st.
Proof. reflexivity. Qed.

Lemma rmatch_Named name r k st :
  rmatch isdecimal (Named name r) k st
  = rmatch isdecimal r (fun st' => k (close name st st')) st.
Proof. reflexivity. Qed.

Lemma rmatch_Star r k st :
  rmatch isdecimal (Star r) k st
  = star_loop (rmatch isdecimal r) k (S (length (rest st))) st.
Proof. reflexivity. Qed.

Lemma rmatch_Chr a k p s g :
  rmatch isdecimal (Chr (ch a)) k (MS p s g)
  = match s with
    | c :: tl => if (N_of_ascii a =? c)%N then k (MS (S p) tl g) else None
    | [] => None
    end.
Proof. reflexivity. Qed.

Lemma rmatch_Range a b k p s g :
  rmatch isdecimal (Range (ch a) (ch b)) k (MS p s g)
  = match s with
    | c :: tl =>
        if ((N_of_ascii a <=? c) && (c <=? N_of_ascii b))%N
        then k (MS (S p) tl g) else None
    | [] => None
    end.
Proof. reflexivity. Qed.

Lemma rmatch_Bol k s g :
  rmatch isdecimal Bol k (MS 0 s g) = k (MS 0 s g).
Proof. reflexivity. Qed.

Lemma rmatch_Eol k p s g :
  rmatch isdecimal Eol k (MS p s g) = if at_eol s then k (MS p s g) else None.
Proof. reflexivity. Qed.

Lemma posint_run (k : cont) :
  rejects_digit k ->
  forall p s g,
    rmatch isdecimal posint k (MS p s g)
    = match take_posint s with
      | Some (w, r) => k (MS (length w + p) r g)
      | None => None
      end.
Proof.
  intros Hk p s g. unfold posint.
  rewrite rmatch_Group, rmatch_Alt, rmatch_Chr, rmatch_Cat, rmatch_Range.
  destruct s as [|c tl]; [reflexivity|].
  change (N_of_ascii "0") with 48%N. change (N_of_ascii "1") with 49%N.
  change (N_of_ascii "9") with 57%N.
  unfold take_posint. rewrite (N.eqb_sym 48 c).
  destruct (c =? 48)%N eqn:E0.
  - apply N.eqb_eq in E0. subst c.
    change ((49 <=? 48) && (48 <=? 57))%N with false. apply orelse_none_r.
  - destruct ((49 <=? c) && (c <=? 57))%N eqn:E1; [|reflexivity].
    rewrite rmatch_Star, (star_digit_run Hk) by (simpl; lia).
    destruct (span_decimal tl) as [ds r]. simpl.
    now rewrite Nat.add_succ_r.
Qed.

Lemma named_posint_run (name : string) (k : cont) :
  rejects_digit k ->
  forall p s g,
    rmatch isdecimal (Named name posint) k (MS p s g)
    = match take_posint s with
      | Some (w, r) => k (MS (length w + p) r ((name, w) :: g))
      | None => None
      end.
Proof.
  intros Hk p s g.
  rewrite rmatch_Named, posint_run.
  - destruct (take_posint s) as [[w r]|] eqn:E; [|reflexivity].
    apply take_posint_sound in E as [-> _].
    unfold close. simpl. now rewrite Nat.add_sub, firstn_prefix.
  - intros p' c tl g' Hc. unfold close. simpl. now apply Hk.
Qed.

Lemma shortform_eq :
  shortform
  = Bol @@ Named "major" posint @@ Chr (ch ".") @@ Named "minor" posint
    @@ Opt micro_part @@ Opt pre_part @@ Eol.
Proof. reflexivity. Qed.

Lemma take_marker_sound (s r : str) (k : PreKind) :
  take_marker s = Some (k, r) -> s = marker k ++ r.
Proof.
  unfold take_marker. destruct s as [|c tl]; [discriminate|].
  destruct (N.eqb_spec c 97) as [->|_]; [now intros [= <- <-]|].
  destruct (N.eqb_spec c 98) as [->|_]; [now intros [= <- <-]|].
  destruct (N.eqb_spec c 114) as [->|_]; [|discriminate].
  destruct tl as [|d tl]; [discriminate|].
  destruct (N.eqb_spec d 99) as [->|_]; [|discriminate].
  now intros [= <- <-].
Qed.

Lemma prekind_run (k : cont) p s g :
  rmatch isdecimal (Named "prekind" prekind_alt) k (MS p s g)
  = match take_marker s with
    | Some (kd, r) =>
        k (MS (length (marker kd) + p) r (("prekind"%string, marker kd) :: g))
    | None => None
    end.
Proof.
  unfold prekind_alt.
  rewrite rmatch_Named, !rmatch_Alt, rmatch_Cat, !rmatch_Chr.
  destruct s as [|c tl]; [reflexivity|]. unfold take_marker.
  change (N_of_ascii "a") with 97%N. change (N_of_ascii "b") with 98%N.
  change (N_of_ascii "r") with 114%N.
  rewrite (N.eqb_sym 97 c), (N.eqb_sym 98 c), (N.eqb_sym 114 c).
  destruct (N.eqb_spec c 97) as [->|Ha].
  - change (97 =? 98)%N with false. change (97 =? 114)%N with false.
    unfold close. cbn [pos rest groups].
    replace (S p - p) with 1 by lia. simpl. now destruct (k _).
  - destruct (N.eqb_spec c 98) as [->|Hb].
    + change (98 =? 114)%N with false.
      unfold close. cbn [pos rest groups].
      replace (S p - p) with 1 by lia. simpl. now destruct (k _).
    + destruct (N.eqb_spec c 114) as [->|Hr]; [|reflexivity].
      rewrite rmatch_Chr. destruct tl as [|d tl]; [reflexivity|].
      change (N_of_ascii "c") with 99%N. rewrite (N.eqb_sym 99 d).
      destruct (N.eqb_spec d 99) as [->|Hc]; [|reflexivity].
      unfold close. cbn [pos rest groups].
      replace (S (S p) - p) with 2 by lia. reflexivity.
Qed.

Lemma at_eol_trimmed (s : str) :
  rtrimmed s -> at_eol s = match s with [] => true | _ :: _ => false end.
Proof.
  intros H. destruct (at_eol s) eqn:E.
  - now rewrite (rtrimmed_not_lf H E).
  - destruct s; [discriminate|reflexivity].
Qed.

Lemma rejects_eol : rejects_digit (rmatch isdecimal Eol matched).
Proof.
  intros p c tl g Hc. rewrite rmatch_Eol. unfold at_eol.
  destruct tl; [|reflexivity].
  now rewrite (N.eqb_sym c LF), (@isdecimal_neq c LF Hc) by (unfold LF; lia).
Qed.

Lemma take_marker_digit (c : char) (tl : str) :
  isdecimal c = true -> take_marker (c :: tl) = None.
Proof.
  intros Hc. unfold take_marker.
  rewrite !(N.eqb_sym c), !(fun d => @isdecimal_neq c d Hc) by lia. reflexivity.
Qed.

Lemma rejects_pre : rejects_digit (rmatch isdecimal (Opt pre_part @@ Eol) matched).
Proof.
  intros p c tl g Hc. unfold pre_part.
  rewrite rmatch_Cat, rmatch_Opt, rmatch_Group, rmatch_Cat, prekind_run.
  rewrite (take_marker_digit c tl Hc). apply (rejects_eol p c tl g Hc).
Qed.

Lemma rejects_dot (r : regex) (k : cont) :
  rejects_digit (rmatch isdecimal (Chr (ch ".") @@ r) k).
Proof.
  intros p c tl g Hc. rewrite rmatch_Cat, rmatch_Chr.
  change (N_of_ascii ".") with 46%N.
  now rewrite (@isdecimal_neq c 46%N Hc) by lia.
Qed.

Lemma rejects_micro :
  rejects_digit (rmatch isdecimal (Opt micro_part @@ Opt pre_part @@ Eol) matched).
Proof.
  intros p c tl g Hc. unfold micro_part.
  rewrite rmatch_Cat, rmatch_Opt, rmatch_Group.
  rewrite (@rejects_dot _ _ p c tl g Hc). apply (rejects_pre p c tl g Hc).
Qed.

(** The optional prerelease suffix and the end of the text. *)
Lemma pre_run p s g :
  rtrimmed s ->
  rmatch isdecimal (Opt pre_part @@ Eol) matched (MS p s g)
  = option_map (fun pre => pre_groups pre ++ g) (parse_pre s).
Proof.
  intros Hs. unfold pre_part.
  rewrite rmatch_Cat, rmatch_Opt, rmatch_Group, rmatch_Cat, prekind_run.
  rewrite (rmatch_Eol matched p s g), (at_eol_trimmed Hs).
  destruct s as [|c tl]; [reflexivity|].
  rewrite orelse_none_r. unfold parse_pre.
  destruct (take_marker (c :: tl)) as [[kd r]|] eqn:Em; [|reflexivity].
  rewrite (named_posint_run _ rejects_eol).
  destruct (take_posint r) as [[n r']|] eqn:En; [|reflexivity].
  apply take_marker_sound in Em. apply take_posint_sound in En as [En _].
  assert (Hr : rtrimmed r').
  { apply rtrimmed_suffix with (a := marker kd ++ n).
    rewrite <- app_assoc, <- En, <- Em. exact Hs. }
  rewrite rmatch_Eol, (at_eol_trimmed Hr).
  destruct r'; reflexivity.
Qed.

(** The optional MICRO, then the rest. *)
Lemma micro_run p s g :
  rtrimmed s ->
  rmatch isdecimal (Opt micro_part @@ Opt pre_part @@ Eol) matched (MS p s g)
  = match parse_micro s with
    | Some (mc, r) =>
        option_map (fun pre => pre_groups pre ++ micro_groups mc ++ g) (parse_pre r)
    | None => None
    end.
Proof.
  intros Hs. unfold micro_part.
  rewrite rmatch_Cat, rmatch_Opt, rmatch_Group, rmatch_Cat, rmatch_Chr.
  rewrite (pre_run p g Hs). unfold parse_micro.
  destruct s as [|c tl]; [reflexivity|].
  change (N_of_ascii ".") with 46%N. rewrite (N.eqb_sym 46 c).
  destruct (N.eqb_spec c 46) as [->|Hc]; [|reflexivity].
  rewrite (named_posint_run _ rejects_pre).
  change (parse_pre (46%N :: tl)) with (@None (option (PreKind * str))).
  simpl option_map. rewrite orelse_none_r.
  destruct (take_posint tl) as [[m r]|] eqn:Em; [|reflexivity].
  apply take_posint_sound in Em as [Em _].
  apply pre_run. apply rtrimmed_suffix with (a := 46%N :: m).
  simpl. rewrite <- Em. exact Hs.
Qed.

(** On a trimmed text the compiled pattern and the grammar agree, and the
    groups of the match are the parts of the parsed version. *)
Lemma shortform_match_parse (s : str) :
  rtrimmed s ->
  shortform_match s = option_map groups_of (parse_short s).
Proof.
  intros Hs. unfold shortform_match, re_match. rewrite shortform_eq.
  fold matched. rewrite rmatch_Cat, rmatch_Bol, rmatch_Cat.
  rewrite (named_posint_run _ (@rejects_dot _ _)).
  unfold parse_short.
  destruct (take_posint s) as [[ma r]|] eqn:Ema; [|reflexivity].
  apply take_posint_sound in Ema as [Ema _].
  rewrite rmatch_Cat, rmatch_Chr.
  destruct r as [|c s1]; [reflexivity|].
  change (N_of_ascii ".") with 46%N. rewrite (N.eqb_sym 46 c).
  destruct (N.eqb_spec c 46) as [->|Hc]; [|reflexivity].
  rewrite rmatch_Cat, (named_posint_run _ rejects_micro).
  destruct (take_posint s1) as [[mi s2]|] eqn:Emi; [|reflexivity].
  apply take_posint_sound in Emi as [Emi _].
  rewrite micro_run.
  - destruct (parse_micro s2) as [[mc s3]|]; [|reflexivity].
    destruct (parse_pre s3) as [pre|]; reflexivity.
  - apply rtrimmed_suffix with (a := ma ++ 46%N :: mi).
    rewrite <- app_assoc. simpl. rewrite <- Emi, <- Ema. exact Hs.
Qed.

(** ** The recogniser and the grammar *)

Lemma span_decimal_stop (ds r : str) :
  forallb isdecimal ds = true -> stops r -> span_decimal (ds ++ r) = (ds, r).
Proof.
  intros Hds Hr. induction ds as [|c ds IH]; simpl in *.
  - destruct r as [|c r]; [reflexivity|]. simpl in *. now rewrite Hr.
  - apply andb_true_iff in Hds as [Hc Hds]. now rewrite Hc, IH.
Qed.

Lemma is_posint_digits (w : str) : is_posint w = true -> w <> [].
Proof. now destruct w. Qed.

Lemma take_posint_complete (w r : str) :
  is_posint w = true -> stops r -> take_posint (w ++ r) = Some (w, r).
Proof.
  destruct w as [|c ds]; [discriminate|]. unfold is_posint, take_posint.
  intros H Hr. simpl.
  destruct (c =? 48)%N.
  - now destruct ds.
  - apply andb_true_iff in H as [-> Hds]. now rewrite span_decimal_stop.
Qed.

Lemma pre_text_head (pre : option (PreKind * str)) :
  match pre_text pre with
  | [] => True
  | c :: _ => c = 97%N \/ c = 98%N \/ c = 114%N
  end.
Proof. destruct pre as [[[] n]|]; simpl; auto. Qed.

Lemma pre_text_stops pre : stops (pre_text pre).
Proof.
  pose proof (pre_text_head pre) as H. unfold stops.
  destruct (pre_text pre) as [|c r]; [exact I|].
  destruct (isdecimal c) eqn:E; [|reflexivity].
  apply isdecimal_cases in E. lia.
Qed.

Lemma micro_pre_stops mc pre : stops (micro_text mc ++ pre_text pre).
Proof.
  destruct mc as [m|]; [|apply pre_text_stops].
  simpl. unfold isdecimal. reflexivity.
Qed.

Lemma take_marker_complete (k : PreKind) (n : str) :
  take_marker (marker k ++ n) = Some (k, n).
Proof. now destruct k. Qed.

Lemma parse_pre_sound (s : str) pre :
  parse_pre s = Some pre ->
  opt_posint (option_map snd pre) = true /\ s = pre_text pre.
Proof.
  unfold parse_pre. destruct s as [|c tl]; [now intros [= <-]|].
  destruct (take_marker (c :: tl)) as [[k t]|] eqn:Ek; [|discriminate].
  destruct (take_posint t) as [[n [|x r]]|] eqn:En; try discriminate.
  intros [= <-]. apply take_marker_sound in Ek.
  apply take_posint_sound in En as [-> Hn]. rewrite app_nil_r in Ek.
  now split.
Qed.

Lemma parse_pre_complete pre :
  opt_posint (option_map snd pre) = true -> parse_pre (pre_text pre) = Some pre.
Proof.
  destruct pre as [[k n]|]; [|reflexivity]. simpl. intros Hn.
  unfold parse_pre. rewrite take_marker_complete.
  pose proof (@take_posint_complete n [] Hn I) as E. rewrite app_nil_r in E.
  rewrite E. now destruct k.
Qed.

Lemma parse_micro_sound (s r : str) mc :
  parse_micro s = Some (mc, r) ->
  opt_posint mc = true /\ s = micro_text mc ++ r.
Proof.
  unfold parse_micro. destruct s as [|c t]; [now intros [= <- <-]|].
  destruct (N.eqb_spec c 46) as [->|_]; [|now intros [= <- <-]].
  destruct (take_posint t) as [[m r']|] eqn:Em; [|discriminate].
  intros [= <- <-]. apply take_posint_sound in Em as [-> Hm]. now split.
Qed.

Lemma parse_micro_complete mc pre :
  opt_posint mc = true ->
  parse_micro (micro_text mc ++ pre_text pre) = Some (mc, pre_text pre).
Proof.
  intros Hm. destruct mc as [m|]; simpl in *.
  - change (46 =? 46)%N with true. cbv iota.
    now rewrite take_posint_complete by (assumption || apply pre_text_stops).
  - pose proof (pre_text_head pre) as H. unfold parse_micro.
    destruct (pre_text pre) as [|c r]; [reflexivity|].
    destruct (N.eqb_spec c 46); [lia|reflexivity].
Qed.

(** The recogniser accepts exactly the texts of the grammar, and reads
    each of them in one way. *)
Lemma parse_short_sound (s : str) (v : ParsedVersion) :
  parse_short s = Some v -> well_formed v = true /\ s = short_form v.
Proof.
  unfold parse_short.
  destruct (take_posint s) as [[ma [|c s1]]|] eqn:Ema; try discriminate.
  destruct (N.eqb_spec c 46) as [->|_]; [|discriminate].
  destruct (take_posint s1) as [[mi s2]|] eqn:Emi; [|discriminate].
  destruct (parse_micro s2) as [[mc s3]|] eqn:Emc; [|discriminate].
  destruct (parse_pre s3) as [pre|] eqn:Epre; [|discriminate].
  intros [= <-].
  apply take_posint_sound in Ema as [-> Hma], Emi as [-> Hmi].
  apply parse_micro_sound in Emc as [Hmc ->].
  apply parse_pre_sound in Epre as [Hpre ->].
  unfold well_formed, short_form. simpl.
  rewrite Hma, Hmi, Hmc, Hpre. now split.
Qed.

Lemma parse_short_complete (v : ParsedVersion) :
  well_formed v = true -> parse_short (short_form v) = Some v.
Proof.
  destruct v as [ma mi mc pre]. unfold well_formed, short_form. simpl.
  intros H. apply andb_true_iff in H as [H Hpre].
  apply andb_true_iff in H as [H Hmc]. apply andb_true_iff in H as [Hma Hmi].
  unfold parse_short.
  rewrite take_posint_complete by (assumption || (simpl; reflexivity)).
  change (46 =? 46)%N with true. cbv iota.
  rewrite take_posint_complete by (assumption || apply micro_pre_stops).
  rewrite parse_micro_complete by assumption.
  now rewrite parse_pre_complete.
Qed.

Lemma parse_short_none (s : str) :
  parse_short s = None <-> (forall v, well_formed v = true -> s <> short_form v).
Proof.
  split.
  - intros E v Hv ->. rewrite parse_short_complete in E by assumption.
    discriminate.
  - intros H. destruct (parse_short s) as [v|] eqn:E; [|reflexivity].
    apply parse_short_sound in E as [Hv ->]. now destruct (H v Hv).
Qed.

(** ** What the script does *)

Lemma group_major v : group (groups_of v) "major" = Some (pv_major v).
Proof. now destruct v as [ma mi [m|] [[k n]|]]. Qed.

Lemma group_minor v : group (groups_of v) "minor" = Some (pv_minor v).
Proof. now destruct v as [ma mi [m|] [[k n]|]]. Qed.

Lemma group_micro v : group (groups_of v) "micro" = pv_micro v.
Proof. now destruct v as [ma mi [m|] [[k n]|]]. Qed.

Lemma group_prekind v :
  group (groups_of v) "prekind" = option_map (fun kn => marker (fst kn)) (pv_pre v).
Proof. now destruct v as [ma mi [m|] [[k n]|]]. Qed.

Lemma group_preval v :
  group (groups_of v) "preval" = option_map snd (pv_pre v).
Proof. now destruct v as [ma mi [m|] [[k n]|]]. Qed.

Lemma or_else_micro (mc : option str) :
  opt_posint mc = true ->
  or_else mc (lit "0") = match mc with Some m => m | None => lit "0" end.
Proof. destruct mc as [[|c m]|]; [discriminate|reflexivity|reflexivity]. Qed.

Lemma dict_get_kind (k : PreKind) :
  dict_lookup prerelease_kinds (marker k) = Some (longkind k).
Proof. now destruct k. Qed.

(** Equal texts up to the bracketing of [++]. *)
Ltac same_text :=
  f_equal; simpl;
  repeat (rewrite <- app_assoc || rewrite <- app_comm_cons || rewrite app_nil_r
          || (progress simpl));
  reflexivity.

(** The statements of [main] after the prefix is gone. *)
Ltac run_tail Hv :=
  rewrite (shortform_match_parse Hv); unfold normalize;
  match goal with
  | |- context [parse_short ?s] =>
      let E := fresh "E" in
      destruct (parse_short s) as [v|] eqn:E;
      [ apply parse_short_sound in E as [E _];
        unfold well_formed in E;
        apply andb_true_iff in E as [E _]; apply andb_true_iff in E as [_ E];
        cbn [option_map]; cbv iota beta;
        rewrite group_major, group_minor, group_micro, group_prekind, group_preval;
        rewrite (or_else_micro _ E); unfold canonical, dict_get;
        destruct (pv_pre v) as [[k n]|];
        [ destruct k; same_text
        | same_text ]
      | same_text ]
  end.

Lemma script_spec (argv : list str) :
  script argv
  = if negb (Nat.eqb (length argv) 2) || negb (truthy (strip (nth 1 argv [])))
    then Outcome 1 [] (error_message ++ [LF])
    else Outcome 0 (set_output ++ resolve (strip (nth 1 argv [])) ++ [LF]) [].
Proof.
  unfold script, main.
  destruct (negb (Nat.eqb (length argv) 2) || negb (truthy (strip (nth 1 argv []))));
    [reflexivity|].
  generalize (strip_rtrimmed (nth 1 argv [])).
  generalize (strip (nth 1 argv [])). intros branch Hb.
  unfold resolve, run, bind, ret, return_, print, slice_from. cbv beta iota.
  destruct (startswith branch (lit "v")).
  { cbn [stdout stderr app]. apply (rtrimmed_skipn 1) in Hb. run_tail Hb. }
  destruct (startswith branch (lit "release/")); [|reflexivity].
  cbn [stdout stderr app]. apply (rtrimmed_skipn 8) in Hb.
  change (length (lit "release/")) with 8. run_tail Hb.
Qed.

Lemma script_ok (prog arg : str) :
  strip arg <> [] ->
  script [prog; arg] = Outcome 0 (set_output ++ resolve (strip arg) ++ [LF]) [].
Proof.
  intros H. rewrite script_spec. simpl nth. simpl length.
  destruct (strip arg); [contradiction|reflexivity].
Qed.

Lemma resolve_prefixed (pfx x : str) :
  pfx = lit "v" \/ pfx = lit "release/" -> resolve (pfx ++ x) = normalize x.
Proof. intros [-> | ->]; reflexivity. Qed.

Lemma prefixed_nonempty (pfx x : str) :
  pfx = lit "v" \/ pfx = lit "release/" -> pfx ++ x <> [].
Proof. intros [-> | ->]; discriminate. Qed.

Lemma normalize_matched (v : ParsedVersion) :
  well_formed v = true -> normalize (short_form v) = canonical v.
Proof. intros H. unfold normalize. now rewrite parse_short_complete. Qed.

Lemma normalize_unmatched (x : str) :
  parse_short x = None -> normalize x = x.
Proof. intros H. unfold normalize. now rewrite H. Qed.

(** ** Numbers with a leading zero *)

Lemma digit_isdecimal (c : char) : (48 <= c <= 57)%N -> isdecimal c = true.
Proof.
  intros H. unfold isdecimal.
  destruct (N.ltb_spec c 128); [|lia].
  apply andb_true_iff. split; apply N.leb_le; lia.
Qed.

Lemma is_posint_decimal (w : str) : is_posint w = true -> forallb isdecimal w = true.
Proof.
  destruct w as [|c ds]; [discriminate|]. unfold is_posint.
  destruct (N.eqb_spec c 48) as [->|_].
  - destruct ds; [reflexivity|discriminate].
  - intros H. apply andb_true_iff in H as [H Hds].
    apply andb_true_iff in H as [H1 H2]. apply N.leb_le in H1, H2.
    simpl. rewrite Hds, digit_isdecimal by lia. reflexivity.
Qed.

Lemma is_posint_head (w : str) :
  is_posint w = true -> exists c ds, w = c :: ds /\ (48 <= c <= 57)%N.
Proof.
  destruct w as [|c ds]; [discriminate|]. unfold is_posint.
  intros H. exists c, ds. split; [reflexivity|].
  destruct (N.eqb_spec c 48) as [->|_]; [lia|].
  apply andb_true_iff in H as [H _].
  apply andb_true_iff in H as [H1 H2]. apply N.leb_le in H1, H2. lia.
Qed.

Lemma lz_scan_nondec (prev : bool) (c : char) (tl : str) :
  isdecimal c = false -> lz_scan prev (c :: tl) = lz_scan false tl.
Proof. intros H. simpl. now rewrite H. Qed.

Lemma lz_scan_stops (r : str) : stops r -> lz_scan true r = lz_scan false r.
Proof.
  destruct r as [|c r]; [reflexivity|]. intros H.
  now rewrite !lz_scan_nondec.
Qed.

Lemma lz_scan_digits (ds r : str) :
  forallb isdecimal ds = true -> lz_scan true (ds ++ r) = lz_scan true r.
Proof.
  induction ds as [|c ds IH]; [reflexivity|]. simpl. intros H.
  apply andb_true_iff in H as [Hc Hds]. rewrite Hc. simpl. now apply IH.
Qed.

Lemma lz_scan_posint (w r : str) :
  is_posint w = true -> stops r -> lz_scan false (w ++ r) = lz_scan false r.
Proof.
  intros Hw Hr. pose proof (is_posint_decimal w Hw) as Hd.
  destruct w as [|c ds]; [discriminate|].
  simpl in Hd. apply andb_true_iff in Hd as [Hc Hds].
  unfold is_posint in Hw. simpl. rewrite Hc.
  destruct (N.eqb_spec c 48) as [->|_].
  - destruct ds; [|discriminate]. simpl.
    rewrite <- (@lz_scan_stops r Hr).
    destruct r as [|d r]; [reflexivity|]. simpl in Hr. now rewrite Hr.
  - simpl. rewrite lz_scan_digits by assumption. now apply lz_scan_stops.
Qed.

Lemma lz_scan_pre_text pre :
  opt_posint (option_map snd pre) = true -> lz_scan false (pre_text pre) = false.
Proof.
  destruct pre as [[k n]|]; [|reflexivity]. simpl. intros Hn.
  assert (E : lz_scan false n = false).
  { rewrite <- (app_nil_r n), lz_scan_posint; [reflexivity|assumption|exact I]. }
  destruct k; simpl marker; simpl app;
    repeat (rewrite lz_scan_nondec by reflexivity); exact E.
Qed.

Lemma lz_scan_short_form (v : ParsedVersion) :
  well_formed v = true -> lz_scan false (short_form v) = false.
Proof.
  destruct v as [ma mi mc pre]. unfold well_formed, short_form. simpl.
  intros H. apply andb_true_iff in H as [H Hpre].
  apply andb_true_iff in H as [H Hmc]. apply andb_true_iff in H as [Hma Hmi].
  rewrite lz_scan_posint by (assumption || (simpl; reflexivity)).
  rewrite lz_scan_nondec by reflexivity.
  rewrite lz_scan_posint by (assumption || apply micro_pre_stops).
  destruct mc as [m|]; simpl.
  - rewrite lz_scan_posint by (assumption || apply pre_text_stops).
    now apply lz_scan_pre_text.
  - now apply lz_scan_pre_text.
Qed.

Lemma leading_zero_scan (a : str) :
  forall (prev : bool) (c : char) (b : str),
    isdecimal c = true ->
    (forall a' d, a = a' ++ [d] -> isdecimal d = false) ->
    (a = [] -> prev = false) ->
    lz_scan prev (a ++ 48%N :: c :: b) = true.
Proof.
  induction a as [|x a IH]; intros prev c b Hc Ha Hp.
  - rewrite (Hp eq_refl). simpl. rewrite Hc.
    change (isdecimal 48%N) with true. reflexivity.
  - simpl. destruct (isdecimal x) eqn:Ex.
    + rewrite IH; [apply orb_true_r|assumption| |].
      * intros a' d ->. apply (Ha (x :: a') d). reflexivity.
      * intros ->. rewrite (Ha [] x eq_refl) in Ex. discriminate.
    + apply IH; [assumption| |reflexivity].
      intros a' d ->. apply (Ha (x :: a') d). reflexivity.
Qed.

Lemma leading_zero_unmatched (s : str) :
  leading_zero s -> forall v, well_formed v = true -> s <> short_form v.
Proof.
  intros (a & c & b & -> & Hc & Ha) v Hv E.
  pose proof (lz_scan_short_form v Hv) as F. rewrite <- E in F.
  rewrite leading_zero_scan in F by auto. discriminate.
Qed.

(** ** The reassembled text *)

Lemma isspace_digit (c : char) : (48 <= c <= 57)%N -> isspace c = false.
Proof.
  intros H. unfold isspace.
  replace (c <=? 13)%N with false by (symmetry; apply N.leb_gt; lia).
  replace (c <=? 32)%N with false by (symmetry; apply N.leb_gt; lia).
  replace (8192 <=? c)%N with false by (symmetry; apply N.leb_gt; lia).
  repeat match goal with
         | |- context [N.eqb c ?k] =>
             replace (N.eqb c k) with false by (symmetry; apply N.eqb_neq; lia)
         end.
  now rewrite !andb_false_r.
Qed.

Lemma canonical_head (v : ParsedVersion) :
  well_formed v = true ->
  exists d tl, canonical v = d :: tl /\ (48 <= d <= 57)%N.
Proof.
  unfold well_formed, canonical. intros H.
  apply andb_true_iff in H as [H _]. apply andb_true_iff in H as [H _].
  apply andb_true_iff in H as [H _].
  apply is_posint_head in H as (c & ds & -> & Hc). simpl. eauto.
Qed.

Lemma rtrimmed_tl (x : char) (s : str) : rtrimmed (x :: s) -> rtrimmed s.
Proof. apply (@rtrimmed_suffix [x] s). Qed.

Lemma rtrimmed_cons (x : char) (s : str) : s <> [] -> rtrimmed s -> rtrimmed (x :: s).
Proof. apply (@rtrimmed_app [x] s). Qed.

Lemma rtrimmed_canonical (v : ParsedVersion) :
  well_formed v = true -> rtrimmed (short_form v) -> rtrimmed (canonical v).
Proof.
  destruct v as [ma mi mc pre]. unfold well_formed, short_form, canonical.
  simpl. intros H T. apply andb_true_iff in H as [H Hpre].
  apply andb_true_iff in H as [_ Hmc].
  apply rtrimmed_suffix, rtrimmed_tl, rtrimmed_suffix in T.
  apply rtrimmed_app; [discriminate|].
  apply rtrimmed_cons; [now destruct mi|].
  apply rtrimmed_app; [discriminate|].
  apply rtrimmed_cons; [now destruct mc as [[|]|]; destruct pre as [[]|]|].
  destruct pre as [[k n]|]; simpl in *.
  - apply rtrimmed_suffix, rtrimmed_suffix in T.
    apply rtrimmed_app; [discriminate|]. apply rtrimmed_cons; [now destruct k|].
    apply rtrimmed_app; [discriminate|].
    apply rtrimmed_cons; [now apply is_posint_digits|assumption].
  - rewrite app_nil_r in *. destruct mc as [m|]; [|reflexivity].
    now apply rtrimmed_tl in T.
Qed.

Lemma strip_canonical (v : ParsedVersion) :
  well_formed v = true -> rtrimmed (short_form v) ->
  strip (canonical v) = canonical v.
Proof.
  intros Hv T. pose proof (rtrimmed_canonical v Hv T) as R.
  destruct (canonical_head v Hv) as (d & tl & E & Hd).
  unfold strip. rewrite E in *. rewrite lstrip_fix by now apply isspace_digit.
  exact R.
Qed.

Lemma resolve_digit (d : char) (tl : str) :
  (48 <= d <= 57)%N -> resolve (d :: tl) = d :: tl.
Proof.
  intros H. unfold resolve. simpl.
  destruct (N.eqb_spec d 118); [lia|].
  destruct (N.eqb_spec d 114); [lia|]. reflexivity.
Qed.

Lemma script_prefixed (prog arg pfx x : str) :
  pfx = lit "v" \/ pfx = lit "release/" ->
  strip arg = pfx ++ x ->
  script [prog; arg] = Outcome 0 (set_output ++ normalize x ++ [LF]) []
  /\ rtrimmed x.
Proof.
  intros Hp E. split.
  - rewrite script_ok by (rewrite E; now apply prefixed_nonempty).
    now rewrite E, (@resolve_prefixed pfx _ Hp).
  - apply rtrimmed_suffix with (a := pfx). rewrite <- E. apply strip_rtrimmed.
Qed.

(** The fields of the reassembled text. *)
Lemma until_stop (stop : char -> bool) (w r : str) :
  forallb (fun c => negb (stop c)) w = true ->
  match r with [] => True | c :: _ => stop c = true end ->
  until stop (w ++ r) = (w, r).
Proof.
  intros Hw Hr. induction w as [|c w IH]; simpl in *.
  - destruct r as [|c r]; [reflexivity|]. simpl. now rewrite Hr.
  - apply andb_true_iff in Hw as [Hc Hw].
    apply negb_true_iff in Hc. now rewrite Hc, IH.
Qed.

Lemma decimal_not (d : char) (w : str) :
  (d < 48)%N -> forallb isdecimal w = true ->
  forallb (fun c => negb (N.eqb d c)) w = true.
Proof.
  intros Hd H. apply forallb_forall. intros c Hc.
  apply (proj1 (forallb_forall _ _) H) in Hc.
  apply negb_true_iff. apply isdecimal_neq; [assumption|lia].
Qed.

Lemma version_fields_canonical (v : ParsedVersion) :
  well_formed v = true ->
  version_fields (canonical v)
  = Some (pv_major v, pv_minor v,
          match pv_micro v with Some m => m | None => lit "0" end).
Proof.
  destruct v as [ma mi mc pre]. unfold well_formed, canonical. simpl.
  intros H. apply andb_true_iff in H as [H _].
  apply andb_true_iff in H as [H Hmc]. apply andb_true_iff in H as [Hma Hmi].
  apply is_posint_decimal in Hma, Hmi.
  assert (Hm : forallb isdecimal (match mc with Some m => m | None => lit "0" end) = true).
  { destruct mc as [m|]; [now apply is_posint_decimal|reflexivity]. }
  unfold version_fields.
  rewrite until_stop; [|apply decimal_not; [lia|assumption]|reflexivity].
  rewrite until_stop; [|apply decimal_not; [lia|assumption]|reflexivity].
  rewrite until_stop; [reflexivity|apply decimal_not; [lia|assumption]|].
  now destruct pre as [[k n]|].
Qed.

(** The characters of the reassembled text. *)
Lemma canonical_chars (v : ParsedVersion) (c : char) :
  In c (canonical v) -> In c (short_form v) \/ In c (lit ".0-alphbetrc").
Proof.
  destruct v as [ma mi [m|] [[[] n]|]]; unfold canonical, short_form; simpl;
    repeat (rewrite in_app_iff; simpl); tauto.
Qed.

Lemma canonical_no_d (v : ParsedVersion) :
  well_formed v = true -> ~ In (ch "d") (canonical v).
Proof.
  change (ch "d") with 100%N.
  assert (D : forall w, opt_posint (Some w) = true -> ~ In 100%N w).
  { intros w Hw X. apply is_posint_decimal in Hw.
    apply (proj1 (forallb_forall _ _) Hw) in X. discriminate. }
  destruct v as [ma mi mc pre]. unfold well_formed, canonical. simpl.
  intros H. apply andb_true_iff in H as [H Hpre].
  apply andb_true_iff in H as [H Hmc]. apply andb_true_iff in H as [Hma Hmi].
  apply (D ma) in Hma. apply (D mi) in Hmi.
  destruct mc as [m|]; [apply D in Hmc|];
    (destruct pre as [[[] n]|]; [apply (D n) in Hpre.. |]);
    simpl; repeat (rewrite in_app_iff; simpl);
    intuition discriminate.
Qed.

(** The characters of a text of the grammar. *)
Lemma short_form_chars (v : ParsedVersion) (c : char) :
  well_formed v = true -> In c (short_form v) ->
  isdecimal c = true \/ In c (lit ".abrc").
Proof.
  assert (D : forall w, opt_posint (Some w) = true -> In c w -> isdecimal c = true).
  { intros w Hw X. apply is_posint_decimal in Hw.
    now apply (proj1 (forallb_forall _ _) Hw) in X. }
  destruct v as [ma mi mc pre]. unfold well_formed, short_form. simpl.
  intros H. apply andb_true_iff in H as [H Hpre].
  apply andb_true_iff in H as [H Hmc]. apply andb_true_iff in H as [Hma Hmi].
  pose proof (D ma Hma) as Dma. pose proof (D mi Hmi) as Dmi.
  destruct mc as [m|]; [pose proof (D m Hmc) as Dm|];
    (destruct pre as [[[] n]|]; [pose proof (D n Hpre) as Dn.. |]);
    simpl; repeat (rewrite in_app_iff; simpl); tauto.
Qed.

Lemma line_count_some (s : str) : In LF s -> 1 <= line_count s.
Proof.
  unfold line_count. induction s as [|c s IH]; [contradiction|]. simpl.
  intros [->|H]; [rewrite N.eqb_refl; simpl; lia|].
  destruct (N.eqb LF c); simpl; [lia|now apply IH].
Qed.

Lemma normalize_keeps_lf (x : str) : In LF x -> In LF (normalize x).
Proof.
  intros H. rewrite normalize_unmatched; [exact H|].
  apply parse_short_none. intros v Hv E. rewrite E in H.
  apply (short_form_chars v LF Hv) in H as [H|H]; [discriminate|].
  simpl in H. unfold LF in H. intuition discriminate.
Qed.

Lemma resolve_keeps_lf (b : str) : In LF b -> In LF (resolve b).
Proof.
  intros H. unfold resolve.
  destruct (startswith b (lit "v")) eqn:Ev.
  - apply normalize_keeps_lf. apply startswith_inv in Ev. rewrite Ev in H.
    apply in_app_iff in H as [H|H]; [|exact H].
    simpl in H. unfold LF in H. intuition discriminate.
  - destruct (startswith b (lit "release/")) eqn:Er; [|exact H].
    apply normalize_keeps_lf. apply startswith_inv in Er. rewrite Er in H.
    apply in_app_iff in H as [H|H]; [|exact H].
    simpl in H. unfold LF in H. intuition discriminate.
Qed.

Lemma numeral_posint (w : str) :
  is_posint w = true -> numeral w = Some (int_of w).
Proof.
  intros H. pose proof (is_posint_decimal w H) as D.
  destruct w as [|c w]; [discriminate|]. unfold numeral. now rewrite D.
Qed.

Lemma lstrip_incl (c : char) (s : str) : In c (lstrip s) -> In c s.
Proof.
  induction s as [|x s IH]; simpl; [tauto|].
  destruct (isspace x); simpl; tauto.
Qed.

Lemma rstrip_incl (c : char) (s : str) : In c (rstrip s) -> In c s.
Proof.
  induction s as [|x s IH]; simpl; [tauto|].
  destruct (rstrip s) as [|y r]; [destruct (isspace x)|]; simpl in *; tauto.
Qed.

Lemma skipn_incl (c : char) (n : nat) (s : str) : In c (skipn n s) -> In c s.
Proof.
  intros H. rewrite <- (firstn_skipn n s). apply in_app_iff. now right.
Qed.

Lemma resolve_chars (c : char) (b : str) :
  In c (resolve b) -> In c b \/ In c (lit ".0-alphbetrc").
Proof.
  assert (N : forall n, In c (normalize (skipn n b)) ->
                        In c b \/ In c (lit ".0-alphbetrc")).
  { intros n. unfold normalize.
    destruct (parse_short (skipn n b)) as [v|] eqn:E.
    - apply parse_short_sound in E as [_ E]. intros H.
      apply canonical_chars in H as [H|H]; [|now right].
      left. apply (skipn_incl c n). now rewrite E.
    - intros H. left. now apply (skipn_incl c n). }
  unfold resolve.
  destruct (startswith b (lit "v")); [apply N|].
  destruct (startswith b (lit "release/")); [apply N|]. now left.
Qed.

Lemma line_count_app (a b : str) : line_count (a ++ b) = line_count a + line_count b.
Proof. unfold line_count. now rewrite filter_app, length_app. Qed.

Lemma line_count_none (s : str) : ~ In LF s -> line_count s = 0.
Proof.
  unfold line_count. induction s as [|c s IH]; [reflexivity|]. simpl.
  intros H. destruct (N.eqb_spec LF c) as [E|_]; [destruct H; now left|].
  apply IH. tauto.
Qed.

(** ** The properties of the specification *)

(** C1: a trimmed argument that is [v] or [release/] and then a text of
    the short-form grammar is printed as MAJOR.MINOR.MICRO, with the
    string 0 for an absent MICRO, and then -LONGKIND.PREVAL exactly when a
    prerelease marker was read; the long kinds of a, b and rc are alpha,
    beta and rc. *)
Theorem C1_normalized_value (prog arg : str) (v : ParsedVersion) :
  well_formed v = true ->
  strip arg = lit "v" ++ short_form v
  \/ strip arg = lit "release/" ++ short_form v ->
  script [prog; arg]
  = Outcome 0
      (set_output
       ++ (pv_major v ++ lit "." ++ pv_minor v ++ lit "."
           ++ match pv_micro v with Some m => m | None => lit "0" end
           ++ match pv_pre v with
              | Some (k, n) => lit "-" ++ longkind k ++ lit "." ++ n
              | None => []
              end)
       ++ [LF]) []
  /\ (marker KindA = lit "a" /\ longkind KindA = lit "alpha")
  /\ (marker KindB = lit "b" /\ longkind KindB = lit "beta")
  /\ (marker KindRC = lit "rc" /\ longkind KindRC = lit "rc").
Proof.
  intros Hv H. split; [|repeat split].
  assert (E : exists pfx, (pfx = lit "v" \/ pfx = lit "release/")
                          /\ strip arg = pfx ++ short_form v)
    by (destruct H; eauto).
  destruct E as (pfx & Hp & E).
  rewrite script_ok by (rewrite E; now apply prefixed_nonempty).
  rewrite E, (@resolve_prefixed pfx _ Hp), (@normalize_matched v Hv). reflexivity.
Qed.

(** C2: the script exits with status 1, with the usage message on the
    error channel and nothing on standard output, exactly when it is not
    given one argument or that argument is empty or all white space; in
    every other case it exits with status 0. *)
Theorem C2_argument_error (prog : str) (args : list str) :
  let o := script (prog :: args) in
  let bad := length args <> 1
             \/ exists a, args = [a] /\ forallb isspace a = true in
  ((exit_code o = 1%Z
    /\ err o = lit "error: branch name not passed as a sole argument. On GHA pass it as part of `client_payload`." ++ [LF]
    /\ out o = [])
   <-> bad)
  /\ (~ bad -> exit_code o = 0%Z /\ err o = []).
Proof.
  intros o bad. subst o.
  assert (B : negb (Nat.eqb (length (prog :: args)) 2)
              || negb (truthy (strip (nth 1 (prog :: args) []))) = true <-> bad).
  { subst bad. destruct args as [|a [|b args]]; cbn [length nth Nat.eqb negb orb].
    - split; [left; simpl; lia|reflexivity].
    - pose proof (strip_nil_iff a) as Hs.
      destruct (strip a) eqn:E; cbn [truthy negb].
      + split; [right; exists a; split; [reflexivity|now apply Hs]|reflexivity].
      + split; [discriminate|]. intros [X | (a' & [= <-] & X)].
        * simpl in X. lia.
        * apply Hs in X. discriminate.
    - split; [left; simpl; lia|reflexivity]. }
  rewrite script_spec.
  destruct (negb (Nat.eqb (length (prog :: args)) 2)
            || negb (truthy (strip (nth 1 (prog :: args) [])))) eqn:E;
    cbn [exit_code err out].
  - split; [|intros X; destruct X; now apply B].
    split; [intros _; now apply B|]. intros _. now repeat split.
  - assert (NB : ~ bad) by (intros X; apply B in X; discriminate).
    split; [|intros _; now split].
    split; [intros (X & _); discriminate|]. intros X. now destruct NB.
Qed.

(** C3: a non-empty trimmed argument that starts with neither [v] nor
    [release/] is printed unchanged; the pattern is not tried on it. *)
Theorem C3_no_prefix_passthrough (prog arg : str) :
  strip arg <> [] ->
  startswith (strip arg) (lit "v") = false ->
  startswith (strip arg) (lit "release/") = false ->
  script [prog; arg] = Outcome 0 (set_output ++ strip arg ++ [LF]) [].
Proof.
  intros Hne Hv Hr. rewrite script_ok by assumption.
  unfold resolve. now rewrite Hv, Hr.
Qed.

(** C9: an argument that is exactly [v] or exactly [release/] once
    trimmed leaves the empty text, which the pattern does not match; the
    script succeeds and prints an empty value. *)
Theorem C9_bare_prefix (prog arg : str) :
  strip arg = lit "v" \/ strip arg = lit "release/" ->
  script [prog; arg] = Outcome 0 (set_output ++ [] ++ [LF]) []
  /\ shortform_match [] = None.
Proof.
  intros H. split; [|reflexivity].
  rewrite script_ok by (destruct H as [-> | ->]; discriminate).
  destruct H as [-> | ->]; reflexivity.
Qed.

(** C4, amended: when the text after the prefix is not of the short-form
    grammar, the digits after the first digit of a number being those of
    the pattern's [\d], any decimal digit of Unicode and not only 0 to 9,
    the script succeeds and prints that text as it is; every text with a
    multi-digit number that starts with a zero is such a text. *)
Theorem C4_unmatched_passthrough (prog arg pfx rest : str) :
  pfx = lit "v" \/ pfx = lit "release/" ->
  strip arg = pfx ++ rest ->
  (forall v, well_formed v = true -> rest <> short_form v) \/ leading_zero rest ->
  script [prog; arg] = Outcome 0 (set_output ++ rest ++ [LF]) [].
Proof.
  intros Hp E H.
  assert (U : parse_short rest = None).
  { apply parse_short_none. destruct H as [H|H]; [exact H|].
    now apply leading_zero_unmatched. }
  rewrite script_ok by (rewrite E; now apply prefixed_nonempty).
  now rewrite E, (@resolve_prefixed pfx _ Hp), normalize_unmatched.
Qed.

(** C10: one prefix is removed, once, and the test is case-sensitive:
    after [v] or [release/] a text that again starts with [v] or
    [release/] is printed as it is, and an argument that starts with an
    upper-case V or R has no prefix and is printed unchanged. *)
Theorem C10_prefix_once (prog arg rest : str) :
  (strip arg = lit "v" ++ rest \/ strip arg = lit "release/" ++ rest ->
   startswith rest (lit "v") = true \/ startswith rest (lit "release/") = true ->
   script [prog; arg] = Outcome 0 (set_output ++ rest ++ [LF]) [])
  /\ (strip arg = lit "V" ++ rest \/ strip arg = lit "R" ++ rest ->
      script [prog; arg] = Outcome 0 (set_output ++ strip arg ++ [LF]) []).
Proof.
  split.
  - intros H Hr.
    assert (U : parse_short rest = None).
    { destruct Hr as [Hr|Hr]; apply startswith_inv in Hr; rewrite Hr; reflexivity. }
    assert (E : exists pfx, (pfx = lit "v" \/ pfx = lit "release/")
                            /\ strip arg = pfx ++ rest)
      by (destruct H; eauto).
    destruct E as (pfx & Hp & E).
    rewrite script_ok by (rewrite E; now apply prefixed_nonempty).
    now rewrite E, (@resolve_prefixed pfx _ Hp), normalize_unmatched.
  - intros H. rewrite script_ok by (destruct H as [-> | ->]; discriminate).
    destruct H as [-> | ->]; reflexivity.
Qed.

(** C5, amended: a run that exits with status 0 was given one argument
    and writes to standard output the text [::set-output name=version::],
    the resolved version and one line feed, and nothing else; this is
    exactly one line if and only if the trimmed argument holds no line
    feed.  (A line feed strictly inside the trimmed argument is printed
    inside the value.) *)
Theorem C5_output_line (argv : list str) :
  exit_code (script argv) = 0%Z ->
  exists prog arg,
    argv = [prog; arg]
    /\ script argv
       = Outcome 0 (lit "::set-output name=version::"
                    ++ resolve (strip arg) ++ [LF]) []
    /\ (line_count (out (script argv)) = 1 <-> ~ In LF (strip arg)).
Proof.
  rewrite script_spec.
  destruct (negb (Nat.eqb (length argv) 2)) eqn:L; [discriminate|].
  apply negb_false_iff, Nat.eqb_eq in L.
  destruct argv as [|prog [|arg [|x argv]]]; try discriminate. simpl nth.
  simpl orb. destruct (negb (truthy (strip arg))); [discriminate|].
  intros _. exists prog, arg. split; [reflexivity|]. split; [reflexivity|].
  cbn [out]. rewrite !line_count_app.
  change (line_count (lit "::set-output name=version::")) with 0.
  change (line_count [LF]) with 1.
  split.
  - intros C X. apply resolve_keeps_lf, line_count_some in X. lia.
  - intros N. rewrite (@line_count_none (resolve (strip arg))); [reflexivity|].
    intros X. apply resolve_chars in X as [X|X]; [contradiction|].
    simpl in X. unfold LF in X. intuition discriminate.
Qed.

(** C6: when the text after the prefix is of the grammar, the printed
    value starts with a digit, and the script run on that value prints it
    again unchanged. *)
Theorem C6_resolve_again (prog prog' arg : str) (v : ParsedVersion) :
  well_formed v = true ->
  strip arg = lit "v" ++ short_form v
  \/ strip arg = lit "release/" ++ short_form v ->
  script [prog; arg] = Outcome 0 (set_output ++ canonical v ++ [LF]) []
  /\ script [prog'; canonical v] = Outcome 0 (set_output ++ canonical v ++ [LF]) []
  /\ exists d tl, canonical v = d :: tl /\ (48 <= d <= 57)%N.
Proof.
  intros Hv H.
  assert (E : exists pfx, (pfx = lit "v" \/ pfx = lit "release/")
                          /\ strip arg = pfx ++ short_form v)
    by (destruct H; eauto).
  destruct E as (pfx & Hp & E).
  destruct (@script_prefixed prog arg pfx _ Hp E) as [S T].
  rewrite (@normalize_matched v Hv) in S.
  pose proof (canonical_head v Hv) as (d & tl & Ec & Hd).
  split; [exact S|]. split; [|eauto].
  rewrite script_ok; rewrite (strip_canonical v Hv T).
  - rewrite Ec. now rewrite resolve_digit.
  - rewrite Ec. discriminate.
Qed.

(** C7: when the text after the prefix is of the grammar, the first three
    fields of the printed value are numerals, and they denote the
    integers of MAJOR, MINOR and MICRO, an absent MICRO counting as 0. *)
Theorem C7_fields_numeric (prog arg : str) (v : ParsedVersion) :
  well_formed v = true ->
  strip arg = lit "v" ++ short_form v
  \/ strip arg = lit "release/" ++ short_form v ->
  exists value a b c na nb nc,
    out (script [prog; arg]) = set_output ++ value ++ [LF]
    /\ version_fields value = Some (a, b, c)
    /\ numeral a = Some na /\ numeral (pv_major v) = Some na
    /\ numeral b = Some nb /\ numeral (pv_minor v) = Some nb
    /\ numeral c = Some nc
    /\ match pv_micro v with
       | Some m => numeral m = Some nc
       | None => nc = 0%N
       end.
Proof.
  intros Hv H.
  assert (E : exists pfx, (pfx = lit "v" \/ pfx = lit "release/")
                          /\ strip arg = pfx ++ short_form v)
    by (destruct H; eauto).
  destruct E as (pfx & Hp & E).
  destruct (@script_prefixed prog arg pfx _ Hp E) as [S _].
  rewrite (@normalize_matched v Hv) in S.
  pose proof (version_fields_canonical v Hv) as F.
  unfold well_formed in Hv.
  apply andb_true_iff in Hv as [Hv _]. apply andb_true_iff in Hv as [Hv Hmc].
  apply andb_true_iff in Hv as [Hma Hmi].
  exists (canonical v), (pv_major v), (pv_minor v),
    (match pv_micro v with Some m => m | None => lit "0" end),
    (int_of (pv_major v)), (int_of (pv_minor v)),
    (match pv_micro v with Some m => int_of m | None => 0%N end).
  rewrite S, F, !numeral_posint by assumption. repeat split.
  - destruct (pv_micro v) as [m|]; [now apply numeral_posint|reflexivity].
  - destruct (pv_micro v) as [m|]; [now apply numeral_posint|reflexivity].
Qed.

(** C8: whenever the pattern matches the text after the prefix and the
    group [prekind] took part, its text is a, b or rc, the table has it,
    so the default [dev] is not used, and [dev] does not occur in the
    printed value. *)
Theorem C8_dev_unreachable (prog arg pfx version : str) (m : captures) (kind : str) :
  pfx = lit "v" \/ pfx = lit "release/" ->
  strip arg = pfx ++ version ->
  shortform_match version = Some m ->
  group m "prekind" = Some kind ->
  (kind = lit "a" \/ kind = lit "b" \/ kind = lit "rc")
  /\ dict_lookup prerelease_kinds kind <> None
  /\ dict_get prerelease_kinds kind (lit "dev") <> lit "dev"
  /\ exists value,
       script [prog; arg] = Outcome 0 (set_output ++ value ++ [LF]) []
       /\ ~ occurs_in (lit "dev") value.
Proof.
  intros Hp E M G.
  destruct (@script_prefixed prog arg pfx _ Hp E) as [S T].
  rewrite (shortform_match_parse T) in M.
  destruct (parse_short version) as [v|] eqn:P; [|discriminate].
  injection M as <-. rewrite group_prekind in G.
  unfold normalize in S. rewrite P in S.
  apply parse_short_sound in P as [Hv _].
  destruct (pv_pre v) as [[k n]|]; [|discriminate]. injection G as <-.
  split; [destruct k; simpl; auto|].
  split; [now rewrite dict_get_kind|].
  split; [unfold dict_get; rewrite dict_get_kind; now destruct k|].
  exists (canonical v). split; [exact S|].
  intros (a & b & X). apply (canonical_no_d v Hv).
  rewrite X. apply in_app_iff. right. now left.
Qed.

(** ** The pattern on any text *)

Lemma parse_pre_eol_dot (tl : str) : parse_pre_eol (46%N :: tl) = None.
Proof. now destruct tl. Qed.

Lemma pre_run_eol p s g :
  rmatch isdecimal (Opt pre_part @@ Eol) matched (MS p s g)
  = option_map (fun pre => pre_groups pre ++ g) (parse_pre_eol s).
Proof.
  unfold pre_part.
  rewrite rmatch_Cat, rmatch_Opt, rmatch_Group, rmatch_Cat, prekind_run.
  rewrite (rmatch_Eol matched p s g). unfold parse_pre_eol.
  destruct (at_eol s) eqn:Es.
  - destruct s as [|c [|d s]]; [reflexivity| |discriminate].
    simpl in Es. apply N.eqb_eq in Es. subst c. reflexivity.
  - rewrite orelse_none_r.
    destruct (take_marker s) as [[kd r]|]; [|reflexivity].
    rewrite (named_posint_run _ rejects_eol).
    destruct (take_posint r) as [[n r']|]; [|reflexivity].
    rewrite rmatch_Eol. now destruct (at_eol r').
Qed.

Lemma micro_run_eol p s g :
  rmatch isdecimal (Opt micro_part @@ Opt pre_part @@ Eol) matched (MS p s g)
  = match parse_micro s with
    | Some (mc, r) =>
        option_map (fun pre => pre_groups pre ++ micro_groups mc ++ g)
          (parse_pre_eol r)
    | None => None
    end.
Proof.
  unfold micro_part.
  rewrite rmatch_Cat, rmatch_Opt, rmatch_Group, rmatch_Cat, rmatch_Chr.
  rewrite (pre_run_eol p s g). unfold parse_micro.
  destruct s as [|c tl]; [reflexivity|].
  change (N_of_ascii ".") with 46%N. rewrite (N.eqb_sym 46 c).
  destruct (N.eqb_spec c 46) as [->|Hc]; [|reflexivity].
  rewrite (named_posint_run _ rejects_pre), parse_pre_eol_dot.
  simpl option_map. rewrite orelse_none_r.
  destruct (take_posint tl) as [[m r]|]; [|reflexivity].
  apply pre_run_eol.
Qed.

(** On every text the compiled pattern computes [parse_short_eol]. *)
Lemma shortform_match_eol (s : str) :
  shortform_match s = option_map groups_of (parse_short_eol s).
Proof.
  unfold shortform_match, re_match. rewrite shortform_eq.
  fold matched. rewrite rmatch_Cat, rmatch_Bol, rmatch_Cat.
  rewrite (named_posint_run _ (@rejects_dot _ _)).
  unfold parse_short_eol.
  destruct (take_posint s) as [[ma r]|]; [|reflexivity].
  rewrite rmatch_Cat, rmatch_Chr.
  destruct r as [|c s1]; [reflexivity|].
  change (N_of_ascii ".") with 46%N. rewrite (N.eqb_sym 46 c).
  destruct (N.eqb_spec c 46) as [->|Hc]; [|reflexivity].
  rewrite rmatch_Cat, (named_posint_run _ rejects_micro).
  destruct (take_posint s1) as [[mi s2]|]; [|reflexivity].
  rewrite micro_run_eol.
  destruct (parse_micro s2) as [[mc s3]|]; [|reflexivity].
  destruct (parse_pre_eol s3) as [pre|]; reflexivity.
Qed.

(** A final line feed is set aside by every step of the recogniser. *)
Lemma span_decimal_lf (x : str) :
  span_decimal (x ++ [LF])
  = (fst (span_decimal x), snd (span_decimal x) ++ [LF]).
Proof.
  induction x as [|c x IH]; [reflexivity|]. simpl.
  destruct (isdecimal c); [|reflexivity].
  rewrite IH. now destruct (span_decimal x).
Qed.

Lemma take_posint_lf (x : str) :
  take_posint (x ++ [LF])
  = option_map (fun wr => (fst wr, snd wr ++ [LF])) (take_posint x).
Proof.
  destruct x as [|c x]; [reflexivity|]. simpl.
  destruct (c =? 48)%N; [reflexivity|].
  destruct ((49 <=? c) && (c <=? 57))%N; [|reflexivity].
  rewrite span_decimal_lf. now destruct (span_decimal x).
Qed.

Lemma take_marker_lf (x : str) :
  take_marker (x ++ [LF])
  = option_map (fun kr => (fst kr, snd kr ++ [LF])) (take_marker x).
Proof.
  destruct x as [|c x]; [reflexivity|]. simpl.
  destruct (c =? 97)%N; [reflexivity|].
  destruct (c =? 98)%N; [reflexivity|].
  destruct (c =? 114)%N; [|reflexivity].
  destruct x as [|d x]; [reflexivity|]. simpl.
  now destruct (d =? 99)%N.
Qed.

Lemma at_eol_lf (r : str) :
  at_eol (r ++ [LF]) = match r with [] => true | _ :: _ => false end.
Proof. destruct r as [|c [|d r]]; reflexivity. Qed.

Lemma parse_pre_eol_lf (x : str) : parse_pre_eol (x ++ [LF]) = parse_pre x.
Proof.
  unfold parse_pre_eol, parse_pre. rewrite at_eol_lf, take_marker_lf.
  destruct x as [|c x]; [reflexivity|].
  destruct (take_marker (c :: x)) as [[k t]|]; [|reflexivity]. simpl.
  rewrite take_posint_lf.
  destruct (take_posint t) as [[n r]|]; [|reflexivity]. simpl.
  rewrite at_eol_lf. now destruct r.
Qed.

Lemma parse_micro_lf (x : str) :
  parse_micro (x ++ [LF])
  = option_map (fun mr => (fst mr, snd mr ++ [LF])) (parse_micro x).
Proof.
  destruct x as [|c x]; [reflexivity|]. simpl.
  destruct (c =? 46)%N; [|reflexivity].
  rewrite take_posint_lf. now destruct (take_posint x) as [[m r]|].
Qed.

Lemma parse_short_eol_lf (x : str) : parse_short_eol (x ++ [LF]) = parse_short x.
Proof.
  unfold parse_short_eol, parse_short. rewrite take_posint_lf.
  destruct (take_posint x) as [[ma [|c s1]]|]; try reflexivity. simpl.
  destruct (c =? 46)%N; [|reflexivity].
  rewrite take_posint_lf.
  destruct (take_posint s1) as [[mi s2]|]; [|reflexivity]. simpl.
  rewrite parse_micro_lf.
  destruct (parse_micro s2) as [[mc s3]|]; [|reflexivity]. simpl.
  now rewrite parse_pre_eol_lf.
Qed.

(** Without a final line feed the end test of [$] is the end. *)
Lemma at_eol_no_lf (s w r : str) :
  (forall x, s <> x ++ [LF]) -> s = w ++ r ->
  at_eol r = match r with [] => true | _ :: _ => false end.
Proof.
  intros H E. destruct r as [|c [|d r]]; try reflexivity. simpl.
  destruct (N.eqb_spec c LF) as [->|_]; [|reflexivity].
  now destruct (H w).
Qed.

Lemma parse_short_eol_no_lf (s : str) :
  (forall x, s <> x ++ [LF]) -> parse_short_eol s = parse_short s.
Proof.
  intros H. unfold parse_short_eol, parse_short.
  destruct (take_posint s) as [[ma [|c s1]]|] eqn:Ema; try reflexivity.
  destruct (N.eqb_spec c 46) as [->|_]; [|reflexivity].
  destruct (take_posint s1) as [[mi s2]|] eqn:Emi; [|reflexivity].
  destruct (parse_micro s2) as [[mc s3]|] eqn:Emc; [|reflexivity].
  apply take_posint_sound in Ema as [Ema _], Emi as [-> _].
  apply parse_micro_sound in Emc as [_ ->].
  assert (E : parse_pre_eol s3 = parse_pre s3).
  { unfold parse_pre_eol, parse_pre.
    rewrite (@at_eol_no_lf s (ma ++ 46%N :: mi ++ micro_text mc) s3 H)
      by (rewrite Ema, <- app_assoc; simpl; now rewrite <- app_assoc).
    destruct s3 as [|c s3]; [reflexivity|].
    destruct (take_marker (c :: s3)) as [[k t]|] eqn:Ek; [|reflexivity].
    destruct (take_posint t) as [[n r]|] eqn:En; [|reflexivity].
    apply take_marker_sound in Ek. apply take_posint_sound in En as [-> _].
    rewrite (@at_eol_no_lf s (ma ++ 46%N :: mi ++ micro_text mc ++ marker k ++ n) r H).
    - now destruct r.
    - rewrite Ema, Ek, <- app_assoc. simpl. now do 3 rewrite <- app_assoc. }
  now rewrite E.
Qed.

Lemma final_lf_dec (s : str) :
  (exists x, s = x ++ [LF]) \/ (forall x, s <> x ++ [LF]).
Proof.
  induction s as [|c s _] using rev_ind.
  - right. intros x E. now destruct x.
  - destruct (N.eq_dec c LF) as [->|Hc]; [left; eauto|].
    right. intros x E. apply app_inj_tail in E as [_ E]. contradiction.
Qed.

Lemma short_form_no_lf (v : ParsedVersion) :
  well_formed v = true -> forall x, short_form v <> x ++ [LF].
Proof.
  intros Hv x E.
  assert (X : In LF (short_form v)) by (rewrite E; apply in_app_iff; right; now left).
  apply (short_form_chars v LF Hv) in X as [X|X]; [discriminate|].
  simpl in X. unfold LF in X. intuition discriminate.
Qed.

Lemma shortform_match_short_form (v : ParsedVersion) :
  well_formed v = true ->
  shortform_match (short_form v) = Some (groups_of v)
  /\ shortform_match (short_form v ++ [LF]) = Some (groups_of v).
Proof.
  intros Hv. rewrite !shortform_match_eol, parse_short_eol_lf.
  rewrite parse_short_eol_no_lf by now apply short_form_no_lf.
  now rewrite parse_short_complete.
Qed.

Lemma shortform_match_cases (s : str) (m : captures) :
  shortform_match s = Some m ->
  exists v, well_formed v = true
            /\ (s = short_form v \/ s = short_form v ++ [LF])
            /\ m = groups_of v.
Proof.
  rewrite shortform_match_eol.
  destruct (parse_short_eol s) as [v|] eqn:E; [|discriminate].
  intros [= <-]. exists v.
  destruct (final_lf_dec s) as [(x & ->)|H].
  - rewrite parse_short_eol_lf in E. apply parse_short_sound in E as [Hv ->].
    auto.
  - rewrite parse_short_eol_no_lf in E by assumption.
    apply parse_short_sound in E as [Hv ->]. auto.
Qed.

(** X1: the compiled pattern matches a text exactly when the text is
    MAJOR.MINOR, an optional .MICRO and an optional marker a, b or rc with
    its number, each number being 0 or a run of digits that starts with
    one of 1-9, possibly followed by one final line feed; the named groups
    of the match are then these parts, and the groups of absent parts are
    unset. *)
Theorem X1_shortform_exact (s : str) (m : captures) :
  shortform_match s = Some m
  <-> exists v, well_formed v = true
                /\ (s = short_form v \/ s = short_form v ++ [LF])
                /\ m = groups_of v.
Proof.
  split; [apply shortform_match_cases|].
  intros (v & Hv & [-> | ->] & ->).
  - exact (proj1 (@shortform_match_short_form v Hv)).
  - exact (proj2 (@shortform_match_short_form v Hv)).
Qed.

(** X2: in every match of the pattern the groups major and minor are set
    and hold a number; micro, when set, holds a number, so it is never the
    empty string; preval is set exactly when prekind is, and then holds a
    number.  Hence [main] formats no unset group and replaces by 0 only an
    unset micro. *)
Theorem X2_groups_present (s : str) (m : captures) :
  shortform_match s = Some m ->
  (exists ma, group m "major" = Some ma /\ is_posint ma = true)
  /\ (exists mi, group m "minor" = Some mi /\ is_posint mi = true)
  /\ (forall mc, group m "micro" = Some mc -> is_posint mc = true)
  /\ (group m "prekind" = None <-> group m "preval" = None)
  /\ (forall n, group m "preval" = Some n -> is_posint n = true).
Proof.
  intros M. apply shortform_match_cases in M as (v & Hv & _ & ->).
  rewrite group_major, group_minor, group_micro, group_prekind, group_preval.
  destruct v as [ma mi mc pre]. unfold well_formed in Hv. simpl in *.
  apply andb_true_iff in Hv as [H Hpre].
  apply andb_true_iff in H as [H Hmc]. apply andb_true_iff in H as [Hma Hmi].
  split; [eauto|]. split; [eauto|].
  split; [intros x ->; exact Hmc|].
  split; [now destruct pre|]. intros n E.
  destruct pre as [[k n']|]; [|discriminate]. simpl in *. now injection E as <-.
Qed.

(** ** White space around the argument, and the two prefixes *)

Lemma lstrip_space_app (a t : str) :
  forallb isspace a = true -> lstrip (a ++ t) = lstrip t.
Proof.
  induction a as [|c a IH]; [reflexivity|]. simpl. intros H.
  apply andb_true_iff in H as [Hc Ha]. rewrite Hc. now apply IH.
Qed.

Lemma lstrip_app (s b : str) :
  lstrip (s ++ b) = match lstrip s with [] => lstrip b | _ :: _ => lstrip s ++ b end.
Proof.
  induction s as [|c s IH]; simpl; [now destruct (lstrip b)|].
  now destruct (isspace c).
Qed.

Lemma strip_pad (a s b : str) :
  forallb isspace a = true -> forallb isspace b = true ->
  strip (a ++ s ++ b) = strip s.
Proof.
  intros Ha Hb. unfold strip. rewrite lstrip_space_app by assumption.
  rewrite lstrip_app. destruct (lstrip s) as [|c l] eqn:E.
  - rewrite (proj2 (rstrip_nil_iff (lstrip b))); [reflexivity|].
    now rewrite lstrip_all_space.
  - rewrite rstrip_app, (proj2 (rstrip_nil_iff b) Hb). reflexivity.
Qed.

Lemma strip_prefixed (pfx x : str) :
  pfx = lit "v" \/ pfx = lit "release/" -> strip (pfx ++ x) = pfx ++ rstrip x.
Proof.
  intros Hp. unfold strip.
  assert (L : lstrip (pfx ++ x) = pfx ++ x) by (destruct Hp as [-> | ->]; reflexivity).
  assert (R : rstrip pfx = pfx) by (destruct Hp as [-> | ->]; reflexivity).
  rewrite L, rstrip_app, R.
  destruct (rstrip x); [now rewrite app_nil_r|reflexivity].
Qed.

(** X3: white space before and after the argument does not count: the
    script run on an argument with white space added at both ends behaves
    as on the argument itself. *)
Theorem X3_padding_ignored (prog a arg b : str) :
  forallb isspace a = true -> forallb isspace b = true ->
  script [prog; a ++ arg ++ b] = script [prog; arg].
Proof.
  intros Ha Hb. rewrite !script_spec. cbn [nth length].
  now rewrite strip_pad.
Qed.

(** X4: the two prefixes are interchangeable: for every text, the script
    run on [v] and the text behaves as on [release/] and the text. *)
Theorem X4_prefixes_agree (prog x : str) :
  script [prog; lit "v" ++ x] = script [prog; lit "release/" ++ x].
Proof.
  rewrite !script_spec. cbn [nth length].
  rewrite (@strip_prefixed (lit "v") x), (@strip_prefixed (lit "release/") x) by auto.
  reflexivity.
Qed.

(** ** The reassembled text read again *)

Lemma micro_or_zero_posint (v : ParsedVersion) :
  well_formed v = true -> is_posint (micro_or_zero v) = true.
Proof.
  unfold well_formed, micro_or_zero. intros H.
  apply andb_true_iff in H as [H _]. apply andb_true_iff in H as [_ H].
  now destruct (pv_micro v).
Qed.

Lemma canonical_plain (v : ParsedVersion) :
  pv_pre v = None ->
  canonical v
  = short_form (Parsed (pv_major v) (pv_minor v) (Some (micro_or_zero v)) None).
Proof. destruct v as [ma mi mc pre]. simpl. now intros ->. Qed.

Lemma plain_well_formed (v : ParsedVersion) :
  well_formed v = true ->
  well_formed (Parsed (pv_major v) (pv_minor v) (Some (micro_or_zero v)) None) = true.
Proof.
  intros Hv. pose proof (micro_or_zero_posint v Hv) as Hm.
  unfold well_formed in *. simpl.
  apply andb_true_iff in Hv as [H _]. apply andb_true_iff in H as [H _].
  now rewrite H, Hm.
Qed.

Lemma canonical_hyphen (v : ParsedVersion) :
  pv_pre v <> None -> In 45%N (canonical v).
Proof.
  destruct v as [ma mi mc [[k n]|]]; [|contradiction]. intros _.
  unfold canonical. simpl. repeat (rewrite in_app_iff; simpl). tauto.
Qed.

Lemma short_form_no_hyphen (v : ParsedVersion) :
  well_formed v = true -> ~ In 45%N (short_form v).
Proof.
  intros Hv X. apply (short_form_chars v 45%N Hv) in X as [X|X]; [discriminate|].
  simpl in X. intuition discriminate.
Qed.

Lemma parse_short_canonical (v : ParsedVersion) :
  well_formed v = true ->
  parse_short (canonical v)
  = match pv_pre v with
    | None => Some (Parsed (pv_major v) (pv_minor v) (Some (micro_or_zero v)) None)
    | Some _ => None
    end.
Proof.
  intros Hv. destruct (pv_pre v) as [kn|] eqn:E.
  - apply parse_short_none. intros v' Hv' X.
    apply (short_form_no_hyphen v' Hv'). rewrite <- X.
    apply canonical_hyphen. now rewrite E.
  - rewrite canonical_plain by assumption.
    apply parse_short_complete. now apply plain_well_formed.
Qed.

Lemma normalize_canonical (v : ParsedVersion) :
  well_formed v = true -> normalize (canonical v) = canonical v.
Proof.
  intros Hv. unfold normalize. rewrite parse_short_canonical by assumption.
  destruct v as [ma mi mc [kn|]]; [reflexivity|]. now destruct mc.
Qed.

Lemma normalize_idem (x : str) : normalize (normalize x) = normalize x.
Proof.
  unfold normalize at 2 3. destruct (parse_short x) as [v|] eqn:E.
  - apply parse_short_sound in E as [Hv _]. now apply normalize_canonical.
  - now apply normalize_unmatched.
Qed.

Lemma rtrimmed_normalize (x : str) : rtrimmed x -> rtrimmed (normalize x).
Proof.
  intros T. unfold normalize. destruct (parse_short x) as [v|] eqn:E; [|exact T].
  apply parse_short_sound in E as [Hv ->]. now apply rtrimmed_canonical.
Qed.

(** X5: the value printed for a prefixed argument is a fixed point under
    either prefix: the script run on [v] or [release/] and that value
    prints the value again, whether the first run reassembled its text or
    passed it through. *)
Theorem X5_reprefixed_value_stable (prog prog' arg pfx pfx' x : str) :
  pfx = lit "v" \/ pfx = lit "release/" ->
  pfx' = lit "v" \/ pfx' = lit "release/" ->
  strip arg = pfx ++ x ->
  exists value,
    script [prog; arg] = Outcome 0 (set_output ++ value ++ [LF]) []
    /\ script [prog'; pfx' ++ value] = Outcome 0 (set_output ++ value ++ [LF]) [].
Proof.
  intros Hp Hp' E. destruct (@script_prefixed prog arg pfx x Hp E) as [S T].
  exists (normalize x). split; [exact S|].
  pose proof (rtrimmed_normalize T) as Tn.
  assert (E' : strip (pfx' ++ normalize x) = pfx' ++ normalize x).
  { rewrite strip_prefixed by assumption. now rewrite Tn. }
  destruct (@script_prefixed prog' (pfx' ++ normalize x) pfx' _ Hp' E') as [S' _].
  now rewrite normalize_idem in S'.
Qed.

(** X6: the pattern, run on a reassembled text, matches it exactly when
    there is no prerelease part, with MICRO (or its default 0) as the
    group micro; a reassembled text with a prerelease part is outside the
    pattern. *)
Theorem X6_pattern_on_reassembled (v : ParsedVersion) :
  well_formed v = true ->
  shortform_match (canonical v)
  = match pv_pre v with
    | None => Some [("micro"%string, micro_or_zero v);
                    ("minor"%string, pv_minor v);
                    ("major"%string, pv_major v)]
    | Some _ => None
    end.
Proof.
  intros Hv. destruct (pv_pre v) as [kn|] eqn:E.
  - destruct (shortform_match (canonical v)) as [m|] eqn:M; [|reflexivity].
    apply shortform_match_cases in M as (v' & Hv' & X & _).
    assert (H : In 45%N (canonical v)) by (apply canonical_hyphen; now rewrite E).
    destruct X as [X|X]; rewrite X in H.
    + now apply short_form_no_hyphen in H.
    + apply in_app_iff in H as [H|[H|[]]]; [|discriminate].
      now apply short_form_no_hyphen in H.
  - rewrite canonical_plain by assumption.
    exact (proj1 (@shortform_match_short_form _ (plain_well_formed v Hv))).
Qed.

(** ** Where the characters of the value come from *)

(** X7: a successful run invents no character: every character of the
    printed value occurs in the argument or is one of [.0-alphbetrc], the
    characters of the separators, the default 0 and the long kinds. *)
Theorem X7_value_characters (argv : list str) :
  exit_code (script argv) = 0%Z ->
  exists prog arg value,
    argv = [prog; arg]
    /\ out (script argv) = set_output ++ value ++ [LF]
    /\ forall c, In c value -> In c arg \/ In c (lit ".0-alphbetrc").
Proof.
  rewrite script_spec.
  destruct (negb (Nat.eqb (length argv) 2)) eqn:L; [discriminate|].
  apply negb_false_iff, Nat.eqb_eq in L.
  destruct argv as [|prog [|arg [|x argv]]]; try discriminate. simpl nth.
  simpl orb. destruct (negb (truthy (strip arg))); [discriminate|].
  intros _. exists prog, arg, (resolve (strip arg)). repeat split.
  intros c X. apply resolve_chars in X as [X|X]; [left|now right].
  unfold strip in X. now apply rstrip_incl, lstrip_incl in X.
Qed.

(** X8: one foreign character is enough to switch reassembly off: when
    the text after the prefix holds a character that is neither a digit
    nor one of [.abrc], the script prints that text as it is. *)
Theorem X8_foreign_character (prog arg pfx x : str) (c : char) :
  pfx = lit "v" \/ pfx = lit "release/" ->
  strip arg = pfx ++ x ->
  In c x -> isdecimal c = false -> ~ In c (lit ".abrc") ->
  script [prog; arg] = Outcome 0 (set_output ++ x ++ [LF]) [].
Proof.
  intros Hp E Hc Hd Hl. destruct (@script_prefixed prog arg pfx x Hp E) as [S _].
  rewrite normalize_unmatched in S; [exact S|].
  apply parse_short_none. intros v Hv X. rewrite X in Hc.
  apply (short_form_chars v c Hv) in Hc as [Hc|Hc]; [congruence|contradiction].
Qed.

(** ** Which arguments print the same value *)

Lemma canonical_unfold (v : ParsedVersion) :
  canonical v
  = pv_major v ++ 46%N :: pv_minor v ++ 46%N :: micro_or_zero v
    ++ match pv_pre v with
       | Some (k, n) => lit "-" ++ longkind k ++ lit "." ++ n
       | None => []
       end.
Proof. reflexivity. Qed.

Lemma canonical_parts (v v' : ParsedVersion) :
  well_formed v = true -> well_formed v' = true ->
  canonical v = canonical v' ->
  pv_major v = pv_major v' /\ pv_minor v = pv_minor v'
  /\ micro_or_zero v = micro_or_zero v' /\ pv_pre v = pv_pre v'.
Proof.
  intros Hv Hv' E.
  pose proof (version_fields_canonical v Hv) as F.
  rewrite E, (version_fields_canonical v' Hv') in F.
  injection F as Ema Emi Emc.
  fold (micro_or_zero v) in Emc. fold (micro_or_zero v') in Emc.
  repeat split; try congruence.
  rewrite !canonical_unfold, Ema, Emi, Emc in E.
  apply app_inv_head in E. injection E as E. apply app_inv_head in E.
  injection E as E. apply app_inv_head in E.
  destruct (pv_pre v) as [[[] n]|], (pv_pre v') as [[[] n']|]; simpl in E;
    try discriminate E; try reflexivity; now injection E as <-.
Qed.

(** X9: two arguments whose texts after the prefix are of the grammar
    print the same value exactly when they agree on MAJOR, MINOR, the
    prerelease part and MICRO, an absent MICRO being the same as 0: X.Y
    and X.Y.0 are the only versions that are printed alike. *)
Theorem X9_same_value (prog prog' arg arg' pfx pfx' : str) (v v' : ParsedVersion) :
  pfx = lit "v" \/ pfx = lit "release/" ->
  pfx' = lit "v" \/ pfx' = lit "release/" ->
  well_formed v = true -> well_formed v' = true ->
  strip arg = pfx ++ short_form v ->
  strip arg' = pfx' ++ short_form v' ->
  script [prog; arg] = script [prog'; arg']
  <-> pv_major v = pv_major v' /\ pv_minor v = pv_minor v'
      /\ micro_or_zero v = micro_or_zero v' /\ pv_pre v = pv_pre v'.
Proof.
  intros Hp Hp' Hv Hv' E E'.
  destruct (@script_prefixed prog arg pfx _ Hp E) as [S _].
  destruct (@script_prefixed prog' arg' pfx' _ Hp' E') as [S' _].
  rewrite (@normalize_matched v Hv) in S. rewrite (@normalize_matched v' Hv') in S'.
  rewrite S, S'. split.
  - intros X. injection X as X. apply app_inv_tail in X.
    now apply canonical_parts.
  - intros (Ema & Emi & Emc & Epre).
    now rewrite !canonical_unfold, Ema, Emi, Emc, Epre.
Qed.

End Program.

(** ** The properties at concrete arguments

    The script is run with the table [nd_sample]. *)

(** The scenarios of the specification. *)
Example scenario_v123 : script nd_sample [argv0; lit "v1.2.3"] = printed "1.2.3".
Proof. reflexivity. Qed.

Example scenario_release : script nd_sample [argv0; lit "release/2.0"] = printed "2.0.0".
Proof. reflexivity. Qed.

Example scenario_rc : script nd_sample [argv0; lit "v1.0.0rc1"] = printed "1.0.0-rc.1".
Proof. reflexivity. Qed.

Example scenario_alpha : script nd_sample [argv0; lit "v1.2a3"] = printed "1.2.0-alpha.3".
Proof. reflexivity. Qed.

Example scenario_feature : script nd_sample [argv0; lit "feature/foo"] = printed "feature/foo".
Proof. reflexivity. Qed.

Example scenario_leading_zero : script nd_sample [argv0; lit "v01.2.3"] = printed "01.2.3".
Proof. reflexivity. Qed.

Example scenario_empty :
  script nd_sample [argv0; lit ""] = Outcome 1 [] (error_message ++ [LF])
  /\ script nd_sample [argv0] = Outcome 1 [] (error_message ++ [LF]).
Proof. split; reflexivity. Qed.

(** [$] also matches in front of a final line feed, which is why the
    agreement of the pattern with the grammar is stated for trimmed text:
    the script only runs the pattern on such text. *)
Example dollar_before_line_feed :
  shortform_match nd_sample (lit "1.2" ++ [LF])
  = Some [("minor"%string, lit "2"); ("major"%string, lit "1")]
  /\ parse_short nd_sample (lit "1.2" ++ [LF]) = None.
Proof. split; reflexivity. Qed.

(** A digit outside ASCII is a [\d], though not a first digit. *)
Example arabic_indic_minor :
  script nd_sample [argv0; lit "v1.2" ++ [1635%N]]
  = Outcome 0 (set_output ++ lit "1.2" ++ [1635%N] ++ lit ".0" ++ [LF]) [].
Proof. reflexivity. Qed.

Example prefix_once_release : script nd_sample [argv0; lit "release/v1.2.3"] = printed "v1.2.3".
Proof. reflexivity. Qed.

Example prefix_case_sensitive : script nd_sample [argv0; lit "V1.2.3"] = printed "V1.2.3".
Proof. reflexivity. Qed.

Lemma C1_normalized_value_witness :
  let v := Parsed (lit "1") (lit "2") None (Some (KindA, lit "3")) in
  well_formed nd_sample v = true
  /\ strip (lit "v1.2a3") = lit "v" ++ short_form v
  /\ script nd_sample [argv0; lit "v1.2a3"] = printed "1.2.0-alpha.3".
Proof.
  split; [reflexivity|]. split; [reflexivity|].
  exact (proj1 (@C1_normalized_value nd_sample argv0 (lit "v1.2a3")
                  (Parsed (lit "1") (lit "2") None (Some (KindA, lit "3")))
                  eq_refl (or_introl eq_refl))).
Defined.

Lemma C2_argument_error_witness :
  exit_code (script nd_sample [argv0; lit "  "]) = 1%Z
  /\ err (script nd_sample [argv0; lit "  "]) = error_message ++ [LF]
  /\ out (script nd_sample [argv0; lit "  "]) = [].
Proof.
  apply (proj2 (proj1 (@C2_argument_error nd_sample argv0 [lit "  "]))).
  right. exists (lit "  "). split; reflexivity.
Defined.

Lemma C3_no_prefix_passthrough_witness :
  parse_short nd_sample (lit "1.2") = Some (Parsed (lit "1") (lit "2") None None)
  /\ script nd_sample [argv0; lit " 1.2 "] = printed "1.2".
Proof.
  split; [reflexivity|].
  apply (@C3_no_prefix_passthrough nd_sample argv0 (lit " 1.2 "));
    [discriminate|reflexivity|reflexivity].
Defined.

(** C4 as it is written fails: with the digits 0 to 9 the text 1.2 and
    then U+0663 is not of the grammar, yet [\d] takes U+0663 for a digit
    and the script reassembles the text. *)
Lemma C4_digits_counterexample :
  let rest := lit "1.2" ++ [1635%N] in
  strip (lit "v" ++ rest) = lit "v" ++ rest
  /\ parse_short ascii_only rest = None
  /\ (forall v, well_formed ascii_only v = true -> rest <> short_form v)
  /\ script nd_sample [argv0; lit "v" ++ rest]
     = Outcome 0 (set_output ++ rest ++ lit ".0" ++ [LF]) []
  /\ script nd_sample [argv0; lit "v" ++ rest]
     <> Outcome 0 (set_output ++ rest ++ [LF]) [].
Proof.
  split; [reflexivity|]. split; [reflexivity|].
  split; [now apply (parse_short_none ascii_only)|].
  split; [reflexivity|discriminate].
Qed.

Lemma C4_unmatched_passthrough_witness :
  leading_zero nd_sample (lit "01.2.3")
  /\ script nd_sample [argv0; lit "v01.2.3"] = printed "01.2.3".
Proof.
  assert (Z : leading_zero nd_sample (lit "01.2.3")).
  { exists [], 49%N, (lit ".2.3"). split; [reflexivity|]. split; [reflexivity|].
    intros [|x a'] d E; discriminate E. }
  split; [exact Z|].
  exact (@C4_unmatched_passthrough nd_sample argv0 (lit "v01.2.3") (lit "v")
           (lit "01.2.3") (or_introl eq_refl) eq_refl (or_intror Z)).
Defined.

Lemma C5_output_line_witness :
  exit_code (script nd_sample [argv0; lit "v1.2" ++ [LF]]) = 0%Z
  /\ exists prog arg,
       [argv0; lit "v1.2" ++ [LF]] = [prog; arg]
       /\ script nd_sample [argv0; lit "v1.2" ++ [LF]]
          = Outcome 0 (lit "::set-output name=version::"
                       ++ resolve nd_sample (strip arg) ++ [LF]) []
       /\ (line_count (out (script nd_sample [argv0; lit "v1.2" ++ [LF]])) = 1
           <-> ~ In LF (strip arg)).
Proof.
  split; [reflexivity|].
  exact (@C5_output_line nd_sample [argv0; lit "v1.2" ++ [LF]] eq_refl).
Defined.

(** C5 as it is written fails: a line feed inside the argument survives
    trimming, and the one [print] then writes two lines. *)
Lemma C5_one_line_counterexample :
  let o := script nd_sample [argv0; lit "a" ++ [LF] ++ lit "b"] in
  exit_code o = 0%Z
  /\ out o = lit "::set-output name=version::a" ++ [LF] ++ lit "b" ++ [LF]
  /\ line_count (out o) = 2
  /\ line_count (out o) <> 1.
Proof. repeat split. discriminate. Qed.

Lemma C6_resolve_again_witness :
  let v := Parsed (lit "2") (lit "0") None None in
  well_formed nd_sample v = true
  /\ strip (lit "release/2.0") = lit "release/" ++ short_form v
  /\ script nd_sample [argv0; lit "release/2.0"] = printed "2.0.0"
  /\ script nd_sample [argv0; lit "2.0.0"] = printed "2.0.0".
Proof.
  split; [reflexivity|]. split; [reflexivity|].
  pose proof (@C6_resolve_again nd_sample argv0 argv0 (lit "release/2.0")
                (Parsed (lit "2") (lit "0") None None)
                eq_refl (or_intror eq_refl)) as H.
  split; [exact (proj1 H)|exact (proj1 (proj2 H))].
Defined.

Lemma C7_fields_numeric_witness :
  let v := Parsed (lit "10") (lit "20") None None in
  well_formed nd_sample v = true
  /\ strip (lit "v10.20") = lit "v" ++ short_form v
  /\ exists value a b c na nb nc,
       out (script nd_sample [argv0; lit "v10.20"]) = set_output ++ value ++ [LF]
       /\ version_fields value = Some (a, b, c)
       /\ numeral nd_sample a = Some na /\ numeral nd_sample (lit "10") = Some na
       /\ numeral nd_sample b = Some nb /\ numeral nd_sample (lit "20") = Some nb
       /\ numeral nd_sample c = Some nc
       /\ nc = 0%N.
Proof.
  split; [reflexivity|]. split; [reflexivity|].
  exact (@C7_fields_numeric nd_sample argv0 (lit "v10.20")
           (Parsed (lit "10") (lit "20") None None)
           eq_refl (or_introl eq_refl)).
Defined.

Lemma C8_dev_unreachable_witness :
  let m := [("preval"%string, lit "1"); ("prekind"%string, lit "rc");
            ("micro"%string, lit "0"); ("minor"%string, lit "0");
            ("major"%string, lit "1")] in
  shortform_match nd_sample (lit "1.0.0rc1") = Some m
  /\ dict_lookup prerelease_kinds (lit "rc") <> None
  /\ dict_get prerelease_kinds (lit "rc") (lit "dev") <> lit "dev".
Proof.
  split; [reflexivity|].
  pose proof (@C8_dev_unreachable nd_sample argv0 (lit "v1.0.0rc1") (lit "v")
                (lit "1.0.0rc1") _ (lit "rc")
                (or_introl eq_refl) eq_refl eq_refl eq_refl) as H.
  split; [exact (proj1 (proj2 H))|exact (proj1 (proj2 (proj2 H)))].
Defined.

Lemma C9_bare_prefix_witness :
  strip (lit " v ") = lit "v" /\ script nd_sample [argv0; lit " v "] = printed "".
Proof.
  split; [reflexivity|].
  exact (proj1 (@C9_bare_prefix nd_sample argv0 (lit " v ") (or_introl eq_refl))).
Defined.

Lemma C10_prefix_once_witness :
  script nd_sample [argv0; lit "vv1.2.3"] = printed "v1.2.3"
  /\ script nd_sample [argv0; lit "V1.2.3"] = printed "V1.2.3".
Proof.
  pose proof (@C10_prefix_once nd_sample argv0 (lit "vv1.2.3") (lit "v1.2.3")) as H.
  pose proof (@C10_prefix_once nd_sample argv0 (lit "V1.2.3") (lit "1.2.3")) as H'.
  split.
  - exact (proj1 H (or_introl eq_refl) (or_introl eq_refl)).
  - exact (proj2 H' (or_introl eq_refl)).
Defined.

(** ** The further properties at concrete arguments *)

Lemma X1_shortform_exact_witness :
  let v := Parsed (lit "1") (lit "2") None None in
  well_formed nd_sample v = true
  /\ shortform_match nd_sample (lit "1.2" ++ [LF])
     = Some [("minor"%string, lit "2"); ("major"%string, lit "1")].
Proof.
  split; [reflexivity|].
  apply (proj2 (@X1_shortform_exact nd_sample (lit "1.2" ++ [LF]) _)).
  exists (Parsed (lit "1") (lit "2") None None).
  split; [reflexivity|]. split; [right; reflexivity|reflexivity].
Defined.

Lemma X2_groups_present_witness :
  let m := [("preval"%string, lit "3"); ("prekind"%string, lit "rc");
            ("minor"%string, lit "2"); ("major"%string, lit "1")] in
  shortform_match nd_sample (lit "1.2rc3") = Some m
  /\ (group m "prekind" = None <-> group m "preval" = None)
  /\ (forall mc, group m "micro" = Some mc -> is_posint nd_sample mc = true).
Proof.
  split; [reflexivity|].
  pose proof (@X2_groups_present nd_sample (lit "1.2rc3") _ eq_refl) as H.
  split; [exact (proj1 (proj2 (proj2 (proj2 H))))|exact (proj1 (proj2 (proj2 H)))].
Defined.

Lemma X3_padding_ignored_witness :
  forallb isspace (lit "  ") = true /\ forallb isspace [LF] = true
  /\ script nd_sample [argv0; lit "  " ++ lit "v1.2" ++ [LF]]
     = script nd_sample [argv0; lit "v1.2"].
Proof.
  split; [reflexivity|]. split; [reflexivity|].
  exact (@X3_padding_ignored nd_sample argv0 (lit "  ") (lit "v1.2") [LF]
           eq_refl eq_refl).
Defined.

Lemma X5_reprefixed_value_stable_witness :
  strip (lit " v1.2a3 ") = lit "v" ++ lit "1.2a3"
  /\ exists value,
       script nd_sample [argv0; lit " v1.2a3 "]
       = Outcome 0 (set_output ++ value ++ [LF]) []
       /\ script nd_sample [argv0; lit "release/" ++ value]
          = Outcome 0 (set_output ++ value ++ [LF]) [].
Proof.
  split; [reflexivity|].
  exact (@X5_reprefixed_value_stable nd_sample argv0 argv0 (lit " v1.2a3 ")
           (lit "v") (lit "release/") (lit "1.2a3")
           (or_introl eq_refl) (or_intror eq_refl) eq_refl).
Defined.

Lemma X6_pattern_on_reassembled_witness :
  let v := Parsed (lit "1") (lit "2") None (Some (KindB, lit "3")) in
  well_formed nd_sample v = true
  /\ canonical v = lit "1.2.0-beta.3"
  /\ shortform_match nd_sample (lit "1.2.0-beta.3") = None.
Proof.
  split; [reflexivity|]. split; [reflexivity|].
  exact (@X6_pattern_on_reassembled nd_sample
           (Parsed (lit "1") (lit "2") None (Some (KindB, lit "3"))) eq_refl).
Defined.

Lemma X7_value_characters_witness :
  exit_code (script nd_sample [argv0; lit "v1.2a3"]) = 0%Z
  /\ exists prog arg value,
       [argv0; lit "v1.2a3"] = [prog; arg]
       /\ out (script nd_sample [argv0; lit "v1.2a3"]) = set_output ++ value ++ [LF]
       /\ forall c, In c value -> In c arg \/ In c (lit ".0-alphbetrc").
Proof.
  split; [reflexivity|].
  exact (@X7_value_characters nd_sample [argv0; lit "v1.2a3"] eq_refl).
Defined.

Lemma X8_foreign_character_witness :
  In (ch "-") (lit "1.2-rc1") /\ isdecimal nd_sample (ch "-") = false
  /\ script nd_sample [argv0; lit "v1.2-rc1"] = printed "1.2-rc1".
Proof.
  assert (I : In (ch "-") (lit "1.2-rc1")) by (simpl; tauto).
  split; [exact I|]. split; [reflexivity|].
  apply (@X8_foreign_character nd_sample argv0 (lit "v1.2-rc1") (lit "v")
           (lit "1.2-rc1") (ch "-") (or_introl eq_refl) eq_refl I eq_refl).
  simpl. intuition discriminate.
Defined.

Lemma X9_same_value_witness :
  let v := Parsed (lit "1") (lit "2") None None in
  let v' := Parsed (lit "1") (lit "2") (Some (lit "0")) None in
  well_formed nd_sample v = true /\ well_formed nd_sample v' = true
  /\ script nd_sample [argv0; lit "v1.2"]
     = script nd_sample [argv0; lit "release/1.2.0"].
Proof.
  split; [reflexivity|]. split; [reflexivity|].
  apply (proj2 (@X9_same_value nd_sample argv0 argv0 (lit "v1.2")
                  (lit "release/1.2.0") (lit "v") (lit "release/")
                  (Parsed (lit "1") (lit "2") None None)
                  (Parsed (lit "1") (lit "2") (Some (lit "0")) None)
                  (or_introl eq_refl) (or_intror eq_refl)
                  eq_refl eq_refl eq_refl eq_refl)).
  repeat split.
Defined.
